(** * A verification development of [snake.py]

    The headless game core of [snake.py]: [Vec] arithmetic, the food
    placement [random_free_cell], [reset_game], [move_snake],
    [out_of_bounds] and the game-update block of [main] (key handling
    that sets [pending_dir], then movement, collisions, growth and
    scoring).

    Python exceptions are modelled by the [outcome] type.  The random
    number generator is an oracle: every call of [random.randrange n]
    consumes one integer [r] of a list of draws and yields [r mod n]
    (every value of [range(n)] is obtained this way).  The rejection loop
    of [random_free_cell] consumes one pair of draws per iteration; when
    the list runs out before the loop exits the result is [OutOfDraws]
    (the loop would still be running). *)

From Stdlib Require Import ZArith List Bool Lia.
From Stdlib Require Lists.Finite.
Import ListNotations.
Open Scope Z_scope.

(** ** Data *)

(** [@dataclass(frozen=True) class Vec] *)
Record Vec := mkVec { x : Z; y : Z }.

(** [Vec.__add__] *)
Definition vadd (a b : Vec) : Vec := mkVec (x a + x b) (y a + y b).

(** Dataclass equality: field by field. *)
Definition Vec_eqb (a b : Vec) : bool := (x a =? x b) && (y a =? y b).

Definition Vec_eq_dec (a b : Vec) : {a = b} + {a <> b}.
Proof. decide equality; apply Z.eq_dec. Defined.

(** Python's [p in xs] on a list or a set. *)
Definition mem (p : Vec) (xs : list Vec) : bool := existsb (Vec_eqb p) xs.

(** Python's [set(xs)]: the distinct elements (order is irrelevant). *)
Definition set_of (xs : list Vec) : list Vec := nodup Vec_eq_dec xs.

Definition CELL_SIZE : Z := 20.
Definition GRID_W : Z := 32.
Definition GRID_H : Z := 24.

Definition DIR_UP : Vec := mkVec 0 (-1).
Definition DIR_DOWN : Vec := mkVec 0 1.
Definition DIR_LEFT : Vec := mkVec (-1) 0.
Definition DIR_RIGHT : Vec := mkVec 1 0.

(** ** Exceptions and the oracle of random draws *)

Inductive exc := RuntimeError | ValueError | IndexError.

Inductive outcome (A : Type) :=
| Ok (a : A)
| Raise (e : exc)
| OutOfDraws.
Arguments Ok {A} a.
Arguments Raise {A} e.
Arguments OutOfDraws {A}.

Definition bind {A B} (m : outcome A) (f : A -> outcome B) : outcome B :=
  match m with
  | Ok a => f a
  | Raise e => Raise e
  | OutOfDraws => OutOfDraws
  end.

Notation "x <- m ;; k" := (bind m (fun x => k))
  (at level 61, m at next level, right associativity).

(** [random.randrange(n)] fed with the oracle value [r]. *)
Definition randrange (n r : Z) : outcome Z :=
  if n <=? 0 then Raise ValueError else Ok (r mod n).

(** The grid is a parameter of everything below, so that other grid
    configurations can be looked at; the program itself uses
    [GRID_W = 32] and [GRID_H = 24]. *)
Section Game.

Variables W H : Z.

(** [while True: p = Vec(randrange(GRID_W), randrange(GRID_H)); if p not in occupied: return p] *)
Fixpoint sample_loop (occupied : list Vec) (draws : list (Z * Z)) : outcome Vec :=
  match draws with
  | [] => OutOfDraws
  | (rx, ry) :: ds =>
      px <- randrange W rx ;;
      py <- randrange H ry ;;
      let p := mkVec px py in
      if negb (mem p occupied) then Ok p else sample_loop occupied ds
  end.

(** [random_free_cell(occupied)]; [occupied] is a Python set, given
    here as a duplicate-free list (callers pass [set_of]). *)
Definition random_free_cell (occupied : list Vec) (draws : list (Z * Z)) : outcome Vec :=
  if Z.of_nat (length occupied) >=? W * H then Raise RuntimeError
  else sample_loop occupied draws.

(** [is_opposite(a, b)] *)
Definition is_opposite (a b : Vec) : bool := (x a =? - x b) && (y a =? - y b).

(** The five values returned by [reset_game] and threaded through [main]. *)
Record GameState := mkState {
  snake : list Vec;
  direction : Vec;
  food : Vec;
  score : Z;
  game_over : bool }.

(** [reset_game()] *)
Definition reset_game (draws : list (Z * Z)) : outcome GameState :=
  let start := mkVec (W / 2) (H / 2) in
  let sn := [start; vadd start DIR_LEFT; vadd (vadd start DIR_LEFT) DIR_LEFT] in
  f <- random_free_cell (set_of sn) draws ;;
  Ok (mkState sn DIR_RIGHT f 0 false).

(** [move_snake(snake, direction)]: returns the new head and the list
    after [snake.insert(0, new_head)]; [snake[0]] raises on an empty list. *)
Definition move_snake (sn : list Vec) (d : Vec) : outcome (Vec * list Vec) :=
  match sn with
  | [] => Raise IndexError
  | h :: _ => let new_head := vadd h d in Ok (new_head, new_head :: sn)
  end.

(** [out_of_bounds(p)] *)
Definition out_of_bounds (p : Vec) : bool :=
  (x p <? 0) || (x p >=? W) || (y p <? 0) || (y p >=? H).

(** One direction key of the event loop of [main] (lines 160-164). *)
Definition handle_dir_key (st : GameState) (pending_dir : option Vec) (cand : Vec)
  : option Vec :=
  if negb (game_over st) then
    if negb (is_opposite cand (direction st)) then Some cand else pending_dir
  else pending_dir.

(** All direction keys of one frame, in arrival order; [pending_dir] is
    [None] at the start of every frame. *)
Definition pending_of_keys (st : GameState) (keys : list Vec) : option Vec :=
  fold_left (handle_dir_key st) keys None.

(** The game update of [main] (lines 166-192). *)
Definition update (st : GameState) (pending_dir : option Vec) (draws : list (Z * Z))
  : outcome GameState :=
  if game_over st then Ok st else
  let dir := match pending_dir with Some d => d | None => direction st end in
  mv <- move_snake (snake st) dir ;;
  let '(new_head, sn) := mv in
  if out_of_bounds new_head then
    Ok (mkState sn dir (food st) (score st) true)
  else if mem new_head (tl sn) then
    Ok (mkState sn dir (food st) (score st) true)
  else if Vec_eqb new_head (food st) then
    match random_free_cell (set_of sn) draws with
    | Ok f => Ok (mkState sn dir f (score st + 1) false)
    | Raise RuntimeError => Ok (mkState sn dir (food st) (score st + 1) true)
    | Raise e => Raise e
    | OutOfDraws => OutOfDraws
    end
  else Ok (mkState (removelast sn) dir (food st) (score st) false).

(** [step(intent)]: one frame in which at most one direction key arrives. *)
Definition step (st : GameState) (intent : option Vec) (draws : list (Z * Z))
  : outcome GameState :=
  let keys := match intent with Some d => [d] | None => [] end in
  update st (pending_of_keys st keys) draws.

(** Runs of [step]: one intent and one list of draws per frame. *)
Fixpoint run (st : GameState) (inputs : list (option Vec * list (Z * Z)))
  : outcome GameState :=
  match inputs with
  | [] => Ok st
  | (i, d) :: rest => st' <- step st i d ;; run st' rest
  end.

(** The heading [step] moves in: [pending_dir] if a key set it. *)
Definition chosen_dir (st : GameState) (intent : option Vec) : Vec :=
  let keys := match intent with Some d => [d] | None => [] end in
  match pending_of_keys st keys with Some d => d | None => direction st end.

(** A food-eating transition: a live state whose next head is the food. *)
Definition eats (st : GameState) (intent : option Vec) : bool :=
  match snake st with
  | h :: _ => negb (game_over st) && Vec_eqb (vadd h (chosen_dir st intent)) (food st)
  | [] => false
  end.

(** Number of food-eating transitions along a run. *)
Fixpoint count_eats (st : GameState) (inputs : list (option Vec * list (Z * Z))) : nat :=
  match inputs with
  | [] => O
  | (i, d) :: rest =>
      match step st i d with
      | Ok st' => ((if eats st i then 1 else 0) + count_eats st' rest)%nat
      | _ => O
      end
  end.

(** States reachable from [reset_game] by [step]s. *)
Inductive reachable : GameState -> Prop :=
| reach_reset draws s : reset_game draws = Ok s -> reachable s
| reach_step s i d s' : reachable s -> step s i d = Ok s' -> reachable s'.

(** A proof device, not part of the program: [update] with [set(snake)]
    replaced by the list itself.  The two agree whenever the body has no
    duplicate cell (lemma [step_fast_eq]); the long run below is checked
    with this one. *)
Definition update_fast (st : GameState) (pending_dir : option Vec) (draws : list (Z * Z))
  : outcome GameState :=
  if game_over st then Ok st else
  let dir := match pending_dir with Some d => d | None => direction st end in
  mv <- move_snake (snake st) dir ;;
  let '(new_head, sn) := mv in
  if out_of_bounds new_head then
    Ok (mkState sn dir (food st) (score st) true)
  else if mem new_head (tl sn) then
    Ok (mkState sn dir (food st) (score st) true)
  else if Vec_eqb new_head (food st) then
    match random_free_cell sn draws with
    | Ok f => Ok (mkState sn dir f (score st + 1) false)
    | Raise RuntimeError => Ok (mkState sn dir (food st) (score st + 1) true)
    | Raise e => Raise e
    | OutOfDraws => OutOfDraws
    end
  else Ok (mkState (removelast sn) dir (food st) (score st) false).

Definition step_fast (st : GameState) (intent : option Vec) (draws : list (Z * Z))
  : outcome GameState :=
  let keys := match intent with Some d => [d] | None => [] end in
  update_fast st (pending_of_keys st keys) draws.

Fixpoint run_fast (st : GameState) (inputs : list (option Vec * list (Z * Z)))
  : outcome GameState :=
  match inputs with
  | [] => Ok st
  | (i, d) :: rest => st' <- step_fast st i d ;; run_fast st' rest
  end.

End Game.

(** ** One iteration of the [while True] loop of [main]

    The input part (lines 135-164) and the game update (lines 166-192);
    rendering (lines 194-219) has no effect on the game state. *)

(** The pygame keys the loop looks at; any other key is [K_other]. *)
Inductive key :=
| K_ESCAPE | K_q | K_r
| K_UP | K_w | K_DOWN | K_s | K_LEFT | K_a | K_RIGHT | K_d
| K_other (code : Z).

Inductive event := QUIT | KEYDOWN (k : key) | OTHER_EVENT.

(** The dictionary [key_to_dir] (lines 150-159). *)
Definition key_to_dir (k : key) : option Vec :=
  match k with
  | K_UP | K_w => Some DIR_UP
  | K_DOWN | K_s => Some DIR_DOWN
  | K_LEFT | K_a => Some DIR_LEFT
  | K_RIGHT | K_d => Some DIR_RIGHT
  | _ => None
  end.

(** [event.key in (pygame.K_ESCAPE, pygame.K_q)] *)
Definition is_quit_key (k : key) : bool :=
  match k with K_ESCAPE | K_q => true | _ => false end.

Definition is_r (k : key) : bool := match k with K_r => true | _ => false end.

Section Loop.

Variables W H : Z.

(** [for event in pygame.event.get(): ...] from a given state and
    [pending_dir]; [None] is [return 0].  A restart draws its food from
    [rd]. *)
Fixpoint handle_events (st : GameState) (pending_dir : option Vec) (evs : list event)
  (rd : list (Z * Z)) : outcome (option (GameState * option Vec)) :=
  match evs with
  | [] => Ok (Some (st, pending_dir))
  | QUIT :: _ => Ok None
  | OTHER_EVENT :: rest => handle_events st pending_dir rest rd
  | KEYDOWN k :: rest =>
      if is_quit_key k then Ok None
      else if game_over st && is_r k then
        st' <- reset_game W H rd ;; handle_events st' None rest rd
      else match key_to_dir k with
           | Some cand => handle_events st (handle_dir_key st pending_dir cand) rest rd
           | None => handle_events st pending_dir rest rd
           end
  end.

Inductive loop_step := Exit (code : Z) | Next (st : GameState).

(** One iteration of the loop: events, then the update with [pending_dir]
    starting at [None] (it is [None] at the end of every iteration). *)
Definition frame (st : GameState) (evs : list event) (rd fd : list (Z * Z))
  : outcome loop_step :=
  r <- handle_events st None evs rd ;;
  match r with
  | None => Ok (Exit 0)
  | Some (st', p) => st'' <- update W H st' p fd ;; Ok (Next st'')
  end.

End Loop.

(** The directions of the direction keys of a list of events. *)
Fixpoint dir_keys (evs : list event) : list Vec :=
  match evs with
  | [] => []
  | KEYDOWN k :: rest =>
      match key_to_dir k with Some d => d :: dir_keys rest | None => dir_keys rest end
  | _ :: rest => dir_keys rest
  end.

(** No event of the list quits or restarts. *)
Definition plain_event (e : event) : bool :=
  match e with
  | QUIT => false
  | KEYDOWN k => negb (is_quit_key k) && negb (is_r k)
  | OTHER_EVENT => true
  end.

(** The last direction of [ds] that is not the exact opposite of [cur]. *)
Definition last_non_reversing (cur : Vec) (ds : list Vec) : option Vec :=
  fold_left (fun acc c => if is_opposite c cur then acc else Some c) ds None.

(** All cells of the grid, column by column. *)
Definition all_cells (W H : Z) : list Vec :=
  flat_map (fun i => map (fun j => mkVec (Z.of_nat i) (Z.of_nat j)) (seq 0 (Z.to_nat H)))
           (seq 0 (Z.to_nat W)).

(** The states [main] reaches: the first [reset_game], then the state of
    every iteration of the loop that does not exit. *)
Inductive loop_reachable (W H : Z) : GameState -> Prop :=
| loop_start (d : list (Z * Z)) (s : GameState) :
    reset_game W H d = Ok s -> loop_reachable W H s
| loop_next (s s' : GameState) (evs : list event) (rd fd : list (Z * Z)) :
    loop_reachable W H s -> frame W H s evs rd fd = Ok (Next s') -> loop_reachable W H s'.

(** One of the four direction constants. *)
Definition is_dir (d : Vec) : Prop :=
  d = DIR_UP \/ d = DIR_DOWN \/ d = DIR_LEFT \/ d = DIR_RIGHT.

(** Consecutive cells of the list are side neighbours. *)
Fixpoint linked (l : list Vec) : Prop :=
  match l with
  | a :: ((b :: _) as t) => Z.abs (x a - x b) + Z.abs (y a - y b) = 1 /\ linked t
  | _ => True
  end.

(** ** The cells drawn by the render part of [main] (lines 194-204) *)

Definition WIDTH : Z := GRID_W * CELL_SIZE.
Definition HEIGHT : Z := GRID_H * CELL_SIZE.


(** [pygame.Rect(left, top, width, height)] *)
Record Rect := mkRect { left : Z; top : Z; rwidth : Z; rheight : Z }.

(** The rectangle that [draw_cell(screen, pos, color)] fills. *)
Definition draw_cell (pos : Vec) : Rect :=
  mkRect (x pos * CELL_SIZE) (y pos * CELL_SIZE) CELL_SIZE CELL_SIZE.


(** A rectangle inside the [WIDTH x HEIGHT] window, and one with no pixel
    in it. *)
Definition rect_inside (r : Rect) : Prop :=
  0 <= left r /\ left r + rwidth r <= WIDTH /\ 0 <= top r /\ top r + rheight r <= HEIGHT.

Definition rect_outside (r : Rect) : Prop :=
  left r + rwidth r <= 0 \/ WIDTH <= left r \/ top r + rheight r <= 0 \/ HEIGHT <= top r.

(** ** A run that fills the whole [GRID_W x GRID_H] grid

    Every step eats the food, and every new food is drawn on the next
    cell of a path through all free cells; the moves are given in
    run-length form. *)

Definition fill_moves_rle : list (Vec * nat) :=
  [(DIR_RIGHT, 15); (DIR_DOWN, 1); (DIR_LEFT, 17); (DIR_DOWN, 1); (DIR_RIGHT, 17); (DIR_DOWN, 1);
   (DIR_LEFT, 17); (DIR_DOWN, 1); (DIR_RIGHT, 17); (DIR_DOWN, 1); (DIR_LEFT, 17); (DIR_DOWN, 1);
   (DIR_RIGHT, 17); (DIR_DOWN, 1); (DIR_LEFT, 17); (DIR_DOWN, 1); (DIR_RIGHT, 17); (DIR_DOWN, 1);
   (DIR_LEFT, 17); (DIR_DOWN, 1); (DIR_RIGHT, 17); (DIR_DOWN, 1); (DIR_LEFT, 31); (DIR_UP, 1);
   (DIR_RIGHT, 13); (DIR_UP, 1); (DIR_LEFT, 13); (DIR_UP, 1); (DIR_RIGHT, 13); (DIR_UP, 1);
   (DIR_LEFT, 13); (DIR_UP, 1); (DIR_RIGHT, 13); (DIR_UP, 1); (DIR_LEFT, 13); (DIR_UP, 1);
   (DIR_RIGHT, 13); (DIR_UP, 1); (DIR_LEFT, 13); (DIR_UP, 1); (DIR_RIGHT, 13); (DIR_UP, 1);
   (DIR_LEFT, 13); (DIR_UP, 1); (DIR_RIGHT, 13); (DIR_UP, 1); (DIR_LEFT, 13); (DIR_UP, 1);
   (DIR_RIGHT, 13); (DIR_UP, 1); (DIR_LEFT, 13); (DIR_UP, 1); (DIR_RIGHT, 13); (DIR_UP, 1);
   (DIR_LEFT, 13); (DIR_UP, 1); (DIR_RIGHT, 13); (DIR_UP, 1); (DIR_LEFT, 13); (DIR_UP, 1);
   (DIR_RIGHT, 13); (DIR_UP, 1); (DIR_LEFT, 13); (DIR_UP, 1); (DIR_RIGHT, 13); (DIR_UP, 1);
   (DIR_LEFT, 13); (DIR_UP, 1); (DIR_RIGHT, 31); (DIR_DOWN, 11); (DIR_LEFT, 1); (DIR_UP, 10);
   (DIR_LEFT, 1); (DIR_DOWN, 10); (DIR_LEFT, 1); (DIR_UP, 10); (DIR_LEFT, 1); (DIR_DOWN, 10);
   (DIR_LEFT, 1); (DIR_UP, 10); (DIR_LEFT, 1); (DIR_DOWN, 10); (DIR_LEFT, 1); (DIR_UP, 10);
   (DIR_LEFT, 1); (DIR_DOWN, 10); (DIR_LEFT, 1); (DIR_UP, 10); (DIR_LEFT, 1); (DIR_DOWN, 10);
   (DIR_LEFT, 1); (DIR_UP, 10); (DIR_LEFT, 1); (DIR_DOWN, 10); (DIR_LEFT, 1); (DIR_UP, 10);
   (DIR_LEFT, 1); (DIR_DOWN, 10); (DIR_LEFT, 1); (DIR_UP, 10); (DIR_LEFT, 1); (DIR_DOWN, 10);
   (DIR_LEFT, 1); (DIR_UP, 10)]%nat.

Definition fill_moves : list Vec :=
  flat_map (fun '(d, n) => repeat d n) fill_moves_rle.

(** One input per move: the intent is the move, the draws put the next
    food on the cell the following move enters. *)
Fixpoint fill_inputs (h : Vec) (moves : list Vec) : list (option Vec * list (Z * Z)) :=
  match moves with
  | [] => []
  | d :: rest =>
      let h' := vadd h d in
      let draws := match rest with
                   | d2 :: _ => let c := vadd h' d2 in [(x c, y c)]
                   | [] => []
                   end in
      (Some d, draws) :: fill_inputs h' rest
  end.

(** The first food is drawn on the cell right of the head. *)
Definition fill_reset_draws : list (Z * Z) := [(17, 12)].

(** Head at the right wall, heading right. *)
Definition wall_state : GameState :=
  mkState [mkVec 31 12; mkVec 30 12; mkVec 29 12] DIR_RIGHT (mkVec 0 0) 0 false.

(** A square body whose tail is right of the head; heading up, food elsewhere. *)
Definition tail_state : GameState :=
  mkState [mkVec 1 1; mkVec 1 2; mkVec 2 2; mkVec 2 1] DIR_UP (mkVec 10 10) 3 false.

(** A set of [GRID_W * GRID_H] distinct cells, all on the column [x = -1]. *)
Definition off_grid_cells : list Vec :=
  map (fun i => mkVec (-1) (Z.of_nat i)) (seq 0 (Z.to_nat (GRID_W * GRID_H))).

(** The state [reset_game] returns when the first draw is [(0, 0)]. *)
Definition start_state : GameState :=
  mkState [mkVec 16 12; mkVec 15 12; mkVec 14 12] DIR_RIGHT (mkVec 0 0) 0 false.

(** The end of the filling run: terminal, with the food on the body. *)
Definition won_with_food_on_body (r : outcome GameState) : bool :=
  match r with
  | Ok s => game_over s && mem (food s) (snake s)
  | _ => false
  end.

(** ** Basic facts *)

Lemma Vec_eqb_eq (a b : Vec) : Vec_eqb a b = true <-> a = b.
Proof.
  destruct a as [ax ay], b as [bx by_]; unfold Vec_eqb; simpl.
  rewrite andb_true_iff, !Z.eqb_eq; split.
  - intros [-> ->]; reflexivity.
  - intros E; injection E; auto.
Qed.

Lemma Vec_eqb_refl (a : Vec) : Vec_eqb a a = true.
Proof. apply Vec_eqb_eq; reflexivity. Qed.

Lemma mem_In (p : Vec) (xs : list Vec) : mem p xs = true <-> In p xs.
Proof.
  unfold mem; rewrite existsb_exists; split.
  - intros [q [Hq E]]; apply Vec_eqb_eq in E; subst; exact Hq.
  - intros Hp; exists p; split; [exact Hp | apply Vec_eqb_refl].
Qed.

Lemma mem_false_not_In (p : Vec) (xs : list Vec) : mem p xs = false <-> ~ In p xs.
Proof.
  rewrite <- mem_In; destruct (mem p xs); split; congruence.
Qed.

Lemma set_of_In (p : Vec) (xs : list Vec) : In p (set_of xs) <-> In p xs.
Proof. apply nodup_In. Qed.

Lemma bind_Ok {A B} (m : outcome A) (f : A -> outcome B) (b : B) :
  bind m f = Ok b -> exists a, m = Ok a /\ f a = Ok b.
Proof. destruct m; simpl; try discriminate; eauto. Qed.

Lemma randrange_Ok (n r v : Z) : randrange n r = Ok v -> 0 <= v < n.
Proof.
  unfold randrange; destruct (Z.leb_spec n 0); intros E; [discriminate|].
  injection E as <-; apply Z.mod_pos_bound; lia.
Qed.

Lemma randrange_no_runtime (n r : Z) : randrange n r <> Raise RuntimeError.
Proof. unfold randrange; destruct (n <=? 0); discriminate. Qed.

Lemma randrange_pos (n r : Z) : 0 < n -> exists v, randrange n r = Ok v.
Proof.
  unfold randrange; intros Hn; destruct (Z.leb_spec n 0); [lia | eauto].
Qed.

Lemma removelast_In {A} (a : A) (l : list A) : In a (removelast l) -> In a l.
Proof.
  destruct l as [|b l]; [simpl; tauto|].
  intros Hin; rewrite (app_removelast_last b (l := b :: l)) by discriminate.
  apply in_or_app; left; exact Hin.
Qed.

Lemma removelast_NoDup {A} (l : list A) : NoDup l -> NoDup (removelast l).
Proof.
  destruct l as [|b l]; [simpl; tauto|].
  rewrite (app_removelast_last b (l := b :: l)) at 1 by discriminate.
  apply NoDup_app_remove_r.
Qed.

Lemma removelast_cons_cons {A} (a b : A) (l : list A) :
  removelast (a :: b :: l) = a :: removelast (b :: l).
Proof. reflexivity. Qed.

(** ** Food placement *)

Section Placement.

Variables W H : Z.

Lemma sample_loop_Ok (occ : list Vec) (ds : list (Z * Z)) (p : Vec) :
  sample_loop W H occ ds = Ok p ->
  ~ In p occ /\ 0 <= x p < W /\ 0 <= y p < H.
Proof.
  induction ds as [|[rx ry] ds IH]; simpl; [discriminate|].
  destruct (randrange W rx) as [px| |] eqn:Ex; simpl; try discriminate.
  destruct (randrange H ry) as [py| |] eqn:Ey; simpl; try discriminate.
  apply randrange_Ok in Ex; apply randrange_Ok in Ey.
  destruct (mem (mkVec px py) occ) eqn:M; simpl; [exact IH|].
  intros E; injection E as <-; apply mem_false_not_In in M; simpl; auto.
Qed.

Lemma sample_loop_no_runtime (occ : list Vec) (ds : list (Z * Z)) :
  sample_loop W H occ ds <> Raise RuntimeError.
Proof.
  induction ds as [|[rx ry] ds IH]; simpl; [discriminate|].
  destruct (randrange W rx) as [px| e |] eqn:Ex; simpl; try discriminate.
  - destruct (randrange H ry) as [py| e |] eqn:Ey; simpl; try discriminate.
    + destruct (mem (mkVec px py) occ); simpl; [exact IH | discriminate].
    + intros E; injection E as ->; apply (randrange_no_runtime H ry); exact Ey.
  - intros E; injection E as ->; apply (randrange_no_runtime W rx); exact Ex.
Qed.

Lemma sample_loop_no_raise (occ : list Vec) (ds : list (Z * Z)) (e : exc) :
  0 < W -> 0 < H -> sample_loop W H occ ds <> Raise e.
Proof.
  intros HW HH; induction ds as [|[rx ry] ds IH]; simpl; [discriminate|].
  destruct (randrange_pos W rx HW) as [px ->]; simpl.
  destruct (randrange_pos H ry HH) as [py ->]; simpl.
  destruct (mem (mkVec px py) occ); simpl; [exact IH | discriminate].
Qed.

Lemma random_free_cell_Ok (occ : list Vec) (ds : list (Z * Z)) (p : Vec) :
  random_free_cell W H occ ds = Ok p ->
  ~ In p occ /\ 0 <= x p < W /\ 0 <= y p < H.
Proof.
  unfold random_free_cell; destruct (_ >=? _); [discriminate | apply sample_loop_Ok].
Qed.

Lemma random_free_cell_runtime (occ : list Vec) (ds : list (Z * Z)) :
  random_free_cell W H occ ds = Raise RuntimeError <-> Z.of_nat (length occ) >= W * H.
Proof.
  unfold random_free_cell; destruct (Z.geb_spec (Z.of_nat (length occ)) (W * H)).
  - split; [lia | reflexivity].
  - split; [intros E; exfalso; exact (sample_loop_no_runtime occ ds E) | lia].
Qed.

Lemma random_free_cell_raise (occ : list Vec) (ds : list (Z * Z)) (e : exc) :
  0 < W -> 0 < H -> random_free_cell W H occ ds = Raise e -> e = RuntimeError.
Proof.
  intros HW HH; unfold random_free_cell; destruct (_ >=? _).
  - congruence.
  - intros E; exfalso; exact (sample_loop_no_raise occ ds e HW HH E).
Qed.

End Placement.

(** ** The two shapes of [step] *)

Section Steps.

Variables W H : Z.

Lemma step_over (s : GameState) (i : option Vec) (d : list (Z * Z)) :
  game_over s = true -> step W H s i d = Ok s.
Proof. intros E; unfold step, update; rewrite E; reflexivity. Qed.

Lemma step_live (s : GameState) (i : option Vec) (d : list (Z * Z)) (h : Vec) (t : list Vec) :
  game_over s = false -> snake s = h :: t ->
  step W H s i d =
    let dir := chosen_dir s i in
    let nh := vadd h dir in
    if out_of_bounds W H nh then Ok (mkState (nh :: h :: t) dir (food s) (score s) true)
    else if mem nh (h :: t) then Ok (mkState (nh :: h :: t) dir (food s) (score s) true)
    else if Vec_eqb nh (food s) then
      match random_free_cell W H (set_of (nh :: h :: t)) d with
      | Ok f => Ok (mkState (nh :: h :: t) dir f (score s + 1) false)
      | Raise RuntimeError => Ok (mkState (nh :: h :: t) dir (food s) (score s + 1) true)
      | Raise e => Raise e
      | OutOfDraws => OutOfDraws
      end
    else Ok (mkState (nh :: removelast (h :: t)) dir (food s) (score s) false).
Proof.
  intros Eo Es; unfold step, update, chosen_dir; rewrite Eo, Es; reflexivity.
Qed.

Lemma step_direction (s s' : GameState) (i : option Vec) (d : list (Z * Z)) :
  game_over s = false -> step W H s i d = Ok s' ->
  direction s' = chosen_dir s i /\ hd (mkVec 0 0) (snake s') = vadd (hd (mkVec 0 0) (snake s)) (chosen_dir s i).
Proof.
  intros Eo.
  destruct (snake s) as [|h t] eqn:Es.
  { unfold step, update; rewrite Eo, Es; discriminate. }
  rewrite (step_live s i d h t Eo Es); cbv zeta.
  destruct (out_of_bounds W H _); [intros E; injection E as <-; auto|].
  destruct (mem _ _); [intros E; injection E as <-; auto|].
  destruct (Vec_eqb _ _).
  - destruct (random_free_cell _ _ _ _) as [f|[]|]; try discriminate;
      intros E; injection E as <-; auto.
  - intros E; injection E as <-; auto.
Qed.

(** The invariant of reachable states. *)
Definition in_grid (p : Vec) : Prop := 0 <= x p < W /\ 0 <= y p < H.

Definition Inv (s : GameState) : Prop :=
  snake s <> [] /\
  in_grid (food s) /\
  ~ In (food s) (tl (snake s)) /\
  (In (food s) (snake s) ->
     game_over s = true /\ W * H <= Z.of_nat (length (set_of (snake s)))) /\
  (game_over s = false -> NoDup (snake s)).

Lemma Inv_reset (d : list (Z * Z)) (s : GameState) :
  reset_game W H d = Ok s -> Inv s.
Proof.
  unfold reset_game; intros E; apply bind_Ok in E as [f [Ef E]].
  injection E as <-.
  apply random_free_cell_Ok in Ef as [Hn Hg].
  rewrite set_of_In in Hn.
  refine (conj _ (conj Hg (conj _ (conj _ _)))); cbn [snake food game_over tl].
  - discriminate.
  - intros Hin; apply Hn; right; exact Hin.
  - intros Hin; contradiction.
  - intros _; unfold vadd, DIR_LEFT; cbn [x y].
    repeat constructor; simpl; intros Q; repeat destruct Q as [Q|Q];
      try injection Q; try lia; try tauto.
Qed.

Ltac inv_split := unfold Inv;
  refine (conj _ (conj _ (conj _ (conj _ _)))); cbn [snake food game_over tl].

Lemma Inv_step (s s' : GameState) (i : option Vec) (d : list (Z * Z)) :
  Inv s -> step W H s i d = Ok s' -> Inv s'.
Proof.
  intros Hinv.
  destruct (game_over s) eqn:Eo.
  { rewrite step_over by exact Eo; intros E; injection E as <-; exact Hinv. }
  destruct Hinv as (Hne & Hg & Htl & Hin & Hnd).
  specialize (Hnd Eo).
  assert (Hnotin : ~ In (food s) (snake s)).
  { intros F; destruct (Hin F) as [C _]; congruence. }
  destruct (snake s) as [|h t] eqn:Es; [congruence|].
  rewrite (step_live s i d h t Eo Es); cbv zeta.
  set (nh := vadd h (chosen_dir s i)).
  destruct (out_of_bounds W H nh) eqn:Eb.
  { intros E; injection E as <-.
    assert (nh <> food s).
    { intros Q; unfold out_of_bounds in Eb; rewrite Q in Eb.
      destruct Hg as [Hx Hy].
      repeat rewrite orb_true_iff in Eb; rewrite ?Z.ltb_lt, ?Z.geb_le in Eb; lia. }
    inv_split; auto; try discriminate.
    intros [Q|Q]; [congruence | contradiction]. }
  destruct (mem nh (h :: t)) eqn:Em.
  { intros E; injection E as <-.
    apply mem_In in Em.
    inv_split; auto; try discriminate.
    intros [Q|Q]; [rewrite Q in Em; contradiction | contradiction]. }
  apply mem_false_not_In in Em.
  destruct (Vec_eqb nh (food s)) eqn:Ef.
  - apply Vec_eqb_eq in Ef.
    destruct (random_free_cell W H (set_of (nh :: h :: t)) d) as [f|[]|] eqn:Er;
      try discriminate; intros E; injection E as <-.
    + apply random_free_cell_Ok in Er as [Hn Hg'].
      rewrite set_of_In in Hn.
      inv_split; try discriminate.
      * exact Hg'.
      * intros Q; apply Hn; right; exact Q.
      * intros Q; exfalso; apply Hn; exact Q.
      * intros _; constructor; assumption.
    + apply random_free_cell_runtime in Er.
      inv_split; try discriminate; auto.
      intros _; split; [reflexivity | lia].
  - assert (Hf : nh <> food s) by (intros Q; rewrite <- Vec_eqb_eq in Q; congruence).
    intros E; injection E as <-.
    inv_split; try discriminate; auto.
    + intros Q; apply Hnotin; apply removelast_In; exact Q.
    + intros [Q|Q]; [congruence|]; exfalso; apply Hnotin, removelast_In, Q.
    + intros _; constructor.
      * intros Q; apply Em, removelast_In, Q.
      * exact (removelast_NoDup (h :: t) Hnd).
Qed.

Lemma reachable_Inv (s : GameState) : reachable W H s -> Inv s.
Proof.
  induction 1 as [d s E | s i d s' _ IH E].
  - exact (Inv_reset d s E).
  - exact (Inv_step s s' i d IH E).
Qed.

End Steps.

(** ** Score and runs *)

Section Runs.

Variables W H : Z.

Lemma step_score (s s' : GameState) (i : option Vec) (d : list (Z * Z)) :
  Inv W H s -> step W H s i d = Ok s' ->
  score s' = score s + (if eats s i then 1 else 0).
Proof.
  intros Hinv.
  destruct (game_over s) eqn:Eo.
  { rewrite step_over by exact Eo; intros E; injection E as <-.
    unfold eats; rewrite Eo; destruct (snake s); simpl; lia. }
  destruct Hinv as (Hne & Hg & _ & Hin & _).
  assert (Hnotin : ~ In (food s) (snake s)).
  { intros F; destruct (Hin F) as [C _]; congruence. }
  unfold eats; destruct (snake s) as [|h t] eqn:Es; [congruence|].
  rewrite (step_live W H s i d h t Eo Es); cbv zeta; rewrite Eo; simpl negb; cbn [andb].
  set (nh := vadd h (chosen_dir s i)).
  destruct (out_of_bounds W H nh) eqn:Eb.
  { intros E; injection E as <-.
    destruct (Vec_eqb nh (food s)) eqn:Ef; [|cbn; lia].
    apply Vec_eqb_eq in Ef; unfold out_of_bounds in Eb; rewrite Ef in Eb.
    destruct Hg as [Hx Hy].
    repeat rewrite orb_true_iff in Eb; rewrite ?Z.ltb_lt, ?Z.geb_le in Eb; lia. }
  destruct (mem nh (h :: t)) eqn:Em.
  { intros E; injection E as <-.
    destruct (Vec_eqb nh (food s)) eqn:Ef; [|cbn; lia].
    apply Vec_eqb_eq in Ef; apply mem_In in Em; rewrite Ef in Em; contradiction. }
  destruct (Vec_eqb nh (food s)) eqn:Ef.
  - destruct (random_free_cell W H _ d) as [f|[]|]; try discriminate;
      intros E; injection E as <-; reflexivity.
  - intros E; injection E as <-; cbn; lia.
Qed.

Lemma run_reachable (s s' : GameState) (inputs : list (option Vec * list (Z * Z))) :
  reachable W H s -> run W H s inputs = Ok s' -> reachable W H s'.
Proof.
  revert s; induction inputs as [|[i d] rest IH]; intros s Hr; simpl.
  - intros E; injection E as <-; exact Hr.
  - intros E; apply bind_Ok in E as [m [Em E]].
    exact (IH m (reach_step W H s i d m Hr Em) E).
Qed.

Lemma run_app (s : GameState) (pre post : list (option Vec * list (Z * Z))) :
  run W H s (pre ++ post) = (m <- run W H s pre ;; run W H m post).
Proof.
  revert s; induction pre as [|[i d] pre IH]; intros s; simpl; [reflexivity|].
  destruct (step W H s i d); simpl; auto.
Qed.

Lemma run_score (s s' : GameState) (inputs : list (option Vec * list (Z * Z))) :
  reachable W H s -> run W H s inputs = Ok s' ->
  score s' = score s + Z.of_nat (count_eats W H s inputs).
Proof.
  revert s; induction inputs as [|[i d] rest IH]; intros s Hr; simpl.
  - intros E; injection E as <-; lia.
  - intros E; apply bind_Ok in E as [m [Em E]]; rewrite Em.
    pose proof (step_score s m i d (reachable_Inv W H s Hr) Em) as Hs.
    pose proof (IH m (reach_step W H s i d m Hr Em) E) as Hm.
    destruct (eats s i); lia.
Qed.

Lemma reset_body_NoDup :
  NoDup [mkVec (W / 2) (H / 2); vadd (mkVec (W / 2) (H / 2)) DIR_LEFT;
         vadd (vadd (mkVec (W / 2) (H / 2)) DIR_LEFT) DIR_LEFT].
Proof.
  unfold vadd, DIR_LEFT; cbn [x y].
  repeat constructor; simpl; intros Q; repeat destruct Q as [Q|Q];
    try injection Q; try lia; try tauto.
Qed.

Lemma step_fast_eq (s : GameState) (i : option Vec) (d : list (Z * Z)) :
  (game_over s = false -> NoDup (snake s)) -> step W H s i d = step_fast W H s i d.
Proof.
  intros Hnd; unfold step, step_fast, update, update_fast.
  destruct (game_over s); [reflexivity|].
  specialize (Hnd eq_refl).
  destruct (snake s) as [|h t]; [reflexivity|]; cbn [move_snake bind tl].
  destruct (out_of_bounds W H _); [reflexivity|].
  destruct (mem _ (h :: t)) eqn:Em; [reflexivity|].
  destruct (Vec_eqb _ _); [|reflexivity].
  apply mem_false_not_In in Em.
  unfold set_of; rewrite (nodup_fixed_point Vec_eq_dec (NoDup_cons _ Em Hnd)).
  reflexivity.
Qed.

Lemma run_fast_eq (s : GameState) (inputs : list (option Vec * list (Z * Z))) :
  reachable W H s -> run W H s inputs = run_fast W H s inputs.
Proof.
  revert s; induction inputs as [|[i d] rest IH]; intros s Hr; simpl; [reflexivity|].
  destruct (reachable_Inv W H s Hr) as (_ & _ & _ & _ & Hnd).
  rewrite <- (step_fast_eq s i d Hnd).
  destruct (step W H s i d) as [s'| |] eqn:E; simpl; try reflexivity.
  exact (IH s' (reach_step W H s i d s' Hr E)).
Qed.

End Runs.

(** ** Bodies, lengths and the event loop *)

Section LoopFacts.

Variables W H : Z.

Lemma handle_events_plain_app (st : GameState) (p : option Vec) (pre rest : list event)
  (rd : list (Z * Z)) :
  forallb plain_event pre = true ->
  handle_events W H st p (pre ++ rest) rd =
    handle_events W H st (fold_left (handle_dir_key st) (dir_keys pre) p) rest rd.
Proof.
  revert p; induction pre as [|e pre IH]; intros p; simpl; [reflexivity|].
  rewrite andb_true_iff; intros [He Hr].
  destruct e as [|k|]; simpl in He; try discriminate.
  - rewrite andb_true_iff, !negb_true_iff in He; destruct He as [Hq Hk].
    rewrite Hq, Hk, andb_false_r.
    destruct (key_to_dir k); simpl; apply IH; exact Hr.
  - apply IH; exact Hr.
Qed.

Lemma handle_events_app (st : GameState) (p : option Vec) (pre rest : list event)
  (rd : list (Z * Z)) :
  handle_events W H st p (pre ++ rest) rd =
    (r <- handle_events W H st p pre rd ;;
     match r with
     | None => Ok None
     | Some (st', p') => handle_events W H st' p' rest rd
     end).
Proof.
  revert st p; induction pre as [|e pre IH]; intros st p; [reflexivity|].
  destruct e as [|k|]; cbn [app handle_events]; [reflexivity| |apply IH].
  destruct (is_quit_key k); [reflexivity|].
  destruct (game_over st && is_r k).
  - destruct (reset_game W H rd); cbn [bind]; [apply IH | reflexivity | reflexivity].
  - destruct (key_to_dir k); apply IH.
Qed.

(** In a live state no event resets the game, and [pending_dir] only
    ever takes a direction that does not reverse the heading. *)
Lemma handle_events_live (st st' : GameState) (p p' : option Vec) (evs : list event)
  (rd : list (Z * Z)) :
  game_over st = false ->
  (forall c, p = Some c -> is_opposite c (direction st) = false) ->
  handle_events W H st p evs rd = Ok (Some (st', p')) ->
  st' = st /\ (forall c, p' = Some c -> is_opposite c (direction st) = false).
Proof.
  intros Eo; revert p; induction evs as [|e rest IH]; intros p Hp; simpl.
  - intros E; injection E as <- <-; split; [reflexivity | exact Hp].
  - destruct e as [|k|]; [discriminate| |apply IH, Hp].
    destruct (is_quit_key k); [discriminate|].
    rewrite Eo; simpl.
    destruct (key_to_dir k) as [cand|]; [|apply IH, Hp].
    apply IH; unfold handle_dir_key; rewrite Eo; simpl.
    destruct (is_opposite cand (direction st)) eqn:Ec; simpl; [exact Hp|].
    intros c Q; injection Q as <-; exact Ec.
Qed.

Lemma update_direction (st s' : GameState) (p : option Vec) (fd : list (Z * Z)) :
  game_over st = false -> update W H st p fd = Ok s' ->
  direction s' = match p with Some d => d | None => direction st end.
Proof.
  intros Eo; unfold update; rewrite Eo.
  destruct (snake st) as [|h t]; cbn [move_snake bind tl]; [discriminate|].
  destruct (out_of_bounds W H _); [intros E; injection E as <-; reflexivity|].
  destruct (mem _ _); [intros E; injection E as <-; reflexivity|].
  destruct (Vec_eqb _ _).
  - destruct (random_free_cell _ _ _ _) as [f|[]|]; try discriminate;
      intros E; injection E as <-; reflexivity.
  - intros E; injection E as <-; reflexivity.
Qed.

Lemma fold_handle_dir_key (st : GameState) (ds : list Vec) (acc : option Vec) :
  game_over st = false ->
  fold_left (handle_dir_key st) ds acc =
  fold_left (fun acc c => if is_opposite c (direction st) then acc else Some c) ds acc.
Proof.
  intros Eo; revert acc; induction ds as [|c ds IH]; intros acc; simpl; [reflexivity|].
  rewrite <- IH; unfold handle_dir_key; rewrite Eo; simpl.
  destruct (is_opposite c (direction st)); reflexivity.
Qed.

Lemma fold_handle_dir_key_over (st : GameState) (ds : list Vec) (acc : option Vec) :
  game_over st = true -> fold_left (handle_dir_key st) ds acc = acc.
Proof.
  intros Eo; revert acc; induction ds as [|c ds IH]; intros acc; simpl; [reflexivity|].
  unfold handle_dir_key at 2; rewrite Eo; apply IH.
Qed.

Lemma fold_non_reversing (cur : Vec) (ds : list Vec) (acc : option Vec) :
  (forall c, acc = Some c -> is_opposite c cur = false) ->
  forall c, fold_left (fun acc c => if is_opposite c cur then acc else Some c) ds acc = Some c ->
  is_opposite c cur = false.
Proof.
  revert acc; induction ds as [|d ds IH]; intros acc Hacc; simpl; [exact Hacc|].
  apply IH; destruct (is_opposite d cur) eqn:E; [exact Hacc|].
  intros c Q; injection Q as <-; exact E.
Qed.

(** Membership in [all_cells]. *)
Lemma all_cells_In (p : Vec) : in_grid W H p -> In p (all_cells W H).
Proof.
  intros [[Hx0 Hx] [Hy0 Hy]]; unfold all_cells; apply in_flat_map.
  exists (Z.to_nat (x p)); split.
  - apply in_seq; lia.
  - apply in_map_iff; exists (Z.to_nat (y p)); split.
    + destruct p as [px py]; cbn [x y] in *; rewrite !Z2Nat.id by lia; reflexivity.
    + apply in_seq; lia.
Qed.

Lemma all_cells_length : length (all_cells W H) = (Z.to_nat W * Z.to_nat H)%nat.
Proof.
  unfold all_cells.
  assert (Hl : forall l : list nat, length (flat_map (fun i => map (fun j =>
    mkVec (Z.of_nat i) (Z.of_nat j)) (seq 0 (Z.to_nat H))) l) = (length l * Z.to_nat H)%nat).
  { induction l as [|i l IH]; simpl; [reflexivity|].
    rewrite length_app, length_map, length_seq, IH; reflexivity. }
  rewrite Hl, length_seq; reflexivity.
Qed.

(** Every live reachable body lies on the grid, when the initial body does. *)
Lemma reachable_body_in_grid (s : GameState) :
  4 <= W -> 1 <= H -> reachable W H s ->
  game_over s = false -> Forall (in_grid W H) (snake s).
Proof.
  intros HW HH; induction 1 as [d s E | s i d s' Hr IH E].
  - unfold reset_game in E; apply bind_Ok in E as [f [_ E]]; injection E as <-.
    intros _; unfold vadd, DIR_LEFT; cbn [snake x y].
    assert (W / 2 < W) by (apply Z.div_lt; lia).
    assert (2 <= W / 2) by (apply Z.div_le_lower_bound; lia).
    assert (H / 2 < H) by (apply Z.div_lt; lia).
    assert (0 <= H / 2) by (apply Z.div_pos; lia).
    repeat constructor; cbn [x y]; lia.
  - destruct (game_over s) eqn:Eo.
    { rewrite step_over in E by exact Eo; injection E as <-; congruence. }
    specialize (IH eq_refl).
    destruct (snake s) as [|h t] eqn:Es.
    { unfold step, update in E; rewrite Eo, Es in E; discriminate. }
    rewrite (step_live W H s i d h t Eo Es) in E; cbv zeta in E.
    set (nh := vadd h (chosen_dir s i)) in E.
    destruct (out_of_bounds W H nh) eqn:Eb; [injection E as <-; discriminate|].
    assert (Hg : in_grid W H nh).
    { unfold out_of_bounds in Eb; rewrite !orb_false_iff in Eb.
      rewrite Z.ltb_ge, !Z.geb_leb, !Z.leb_gt in Eb; unfold in_grid; lia. }
    destruct (mem nh (h :: t)); [injection E as <-; discriminate|].
    destruct (Vec_eqb nh (food s)).
    + destruct (random_free_cell W H _ d) as [f|[]|]; try discriminate;
        injection E as <-; [|discriminate].
      intros _; constructor; assumption.
    + injection E as <-; intros _; cbn [snake]; constructor; [exact Hg|].
      apply Forall_forall; intros q Hq; rewrite Forall_forall in IH.
      apply IH, removelast_In, Hq.
Qed.

(** Length bookkeeping of reachable states. *)
Lemma reachable_length (s : GameState) :
  reachable W H s ->
  (game_over s = false -> Z.of_nat (length (snake s)) = 3 + score s) /\
  (Z.of_nat (length (snake s)) = 3 + score s \/ Z.of_nat (length (snake s)) = 4 + score s).
Proof.
  induction 1 as [d s E | s i d s' Hr IH E].
  - unfold reset_game in E; apply bind_Ok in E as [f [_ E]]; injection E as <-.
    split; [reflexivity | left; reflexivity].
  - destruct (game_over s) eqn:Eo.
    { rewrite step_over in E by exact Eo; injection E as <-.
      destruct IH as [_ IH]; split; [rewrite Eo; discriminate | exact IH]. }
    destruct IH as [IH _]; specialize (IH eq_refl).
    destruct (snake s) as [|h t] eqn:Es.
    { unfold step, update in E; rewrite Eo, Es in E; discriminate. }
    rewrite (step_live W H s i d h t Eo Es) in E; cbv zeta in E.
    cbn [length] in IH.
    destruct (out_of_bounds W H _); [injection E as <-; cbn [snake score game_over length]; split; [discriminate | lia]|].
    destruct (mem _ (h :: t)); [injection E as <-; cbn [snake score game_over length]; split; [discriminate | lia]|].
    destruct (Vec_eqb _ (food s)).
    + destruct (random_free_cell W H _ d) as [f|[]|]; try discriminate;
        injection E as <-; cbn [snake score game_over length]; split; lia.
    + injection E as <-; cbn [snake score game_over].
      assert (Hl : length (removelast (h :: t)) = length t).
      { assert (Ht := f_equal (@length Vec) (app_removelast_last h (l := h :: t)
          ltac:(discriminate))).
        rewrite length_app in Ht; cbn [length] in Ht |- *; lia. }
      change (removelast (h :: t)) with (match t with [] => [] | _ :: _ => h :: removelast t end) in Hl.
      cbn [length]; rewrite Hl; split; lia.
Qed.

Lemma out_of_bounds_false (p : Vec) :
  out_of_bounds W H p = false <-> in_grid W H p.
Proof.
  unfold out_of_bounds, in_grid; rewrite !orb_false_iff, !Z.geb_leb, Z.ltb_ge, Z.ltb_ge,
    !Z.leb_gt; lia.
Qed.

(** When the food is on the body of a reachable state, the state is the
    win by filling: on a grid where the initial body fits, every cell of
    the grid is a body segment. *)
Lemma reachable_food_on_body_fills (s : GameState) :
  4 <= W -> 1 <= H -> reachable W H s -> In (food s) (snake s) ->
  forall p, in_grid W H p -> In p (snake s).
Proof.
  intros HW HH Hr; induction Hr as [d s E | s i d s' Hr IH E].
  - intros F; destruct (Inv_reset W H d s E) as (_ & _ & _ & Hin & _).
    destruct (Hin F) as [Eo _].
    unfold reset_game in E; apply bind_Ok in E as [f [_ E]]; injection E as <-; discriminate.
  - intros F.
    destruct (reachable_Inv W H s' (reach_step W H s i d s' Hr E)) as (_ & _ & _ & Hin' & _).
    destruct (Hin' F) as [Eo' _].
    destruct (game_over s) eqn:Eo.
    { rewrite step_over in E by exact Eo; injection E as <-; exact (IH F). }
    destruct (reachable_Inv W H s Hr) as (_ & Hf & _ & Hin & Hnd).
    specialize (Hnd Eo).
    assert (Hnf : ~ In (food s) (snake s)) by (intros Q; destruct (Hin Q); congruence).
    pose proof (reachable_body_in_grid s HW HH Hr Eo) as Hg.
    destruct (snake s) as [|h t] eqn:Es.
    { unfold step, update in E; rewrite Eo, Es in E; discriminate. }
    rewrite (step_live W H s i d h t Eo Es) in E; cbv zeta in E.
    set (nh := vadd h (chosen_dir s i)) in E.
    destruct (out_of_bounds W H nh) eqn:Eb.
    { injection E as <-; cbn [snake food] in F.
      destruct F as [F | F]; [|contradiction].
      apply out_of_bounds_false in Hf; congruence. }
    destruct (mem nh (h :: t)) eqn:Em.
    { injection E as <-; cbn [snake food] in F.
      destruct F as [F | F]; [|contradiction].
      apply mem_In in Em; rewrite F in Em; contradiction. }
    destruct (Vec_eqb nh (food s)); [|injection E as <-; discriminate].
    destruct (random_free_cell W H (set_of (nh :: h :: t)) d) as [f|[]|] eqn:Er;
      try discriminate; injection E as <-; [discriminate|].
    cbn [snake]; intros p Hp.
    apply mem_false_not_In in Em.
    assert (Hnd' : NoDup (nh :: h :: t)) by (constructor; assumption).
    apply random_free_cell_runtime in Er.
    unfold set_of in Er; rewrite (nodup_fixed_point Vec_eq_dec Hnd') in Er.
    assert (Hincl : incl (all_cells W H) (nh :: h :: t)).
    { apply NoDup_length_incl; [exact Hnd'| |].
      - rewrite all_cells_length; apply Nat2Z.inj_le.
        rewrite Nat2Z.inj_mul, !Z2Nat.id by lia; lia.
      - intros q [Q | Q]; [subst q; apply all_cells_In, out_of_bounds_false, Eb|].
        apply all_cells_In; rewrite Forall_forall in Hg; exact (Hg q Q). }
    apply Hincl, all_cells_In, Hp.
Qed.

End LoopFacts.

(** ** Claims *)

(** C1 (amended).  On a wall collision of a live state, [step] sets
    [game_over] and keeps food, score and the heading it moved in, but the
    body is not unchanged: [move_snake] has already put the off-grid new
    head in front of it. *)
Theorem wall_collision_prepends_head (W H : Z) (s : GameState) (i : option Vec)
  (d : list (Z * Z)) (h : Vec) (t : list Vec) :
  game_over s = false -> snake s = h :: t ->
  out_of_bounds W H (vadd h (chosen_dir s i)) = true ->
  step W H s i d =
    Ok (mkState (vadd h (chosen_dir s i) :: h :: t) (chosen_dir s i) (food s) (score s) true).
Proof.
  intros Eo Es Eb; rewrite (step_live W H s i d h t Eo Es); cbv zeta; rewrite Eb; reflexivity.
Qed.

Lemma wall_collision_prepends_head_witness :
  game_over wall_state = false /\
  out_of_bounds GRID_W GRID_H (vadd (mkVec 31 12) (chosen_dir wall_state None)) = true /\
  step GRID_W GRID_H wall_state None [] =
    Ok (mkState [mkVec 32 12; mkVec 31 12; mkVec 30 12; mkVec 29 12] DIR_RIGHT (mkVec 0 0) 0 true).
Proof.
  split; [reflexivity|]; split; [reflexivity|].
  exact (wall_collision_prepends_head GRID_W GRID_H wall_state None [] (mkVec 31 12)
           [mkVec 30 12; mkVec 29 12] eq_refl eq_refl eq_refl).
Defined.

(** C1 counterexample: head at the right wall heading right, no intent:
    the step is terminal but the body has gained the off-grid head. *)
Lemma wall_collision_body_changes :
  exists s', step GRID_W GRID_H wall_state None [] = Ok s' /\
             game_over s' = true /\ snake s' <> snake wall_state.
Proof.
  eexists; split; [reflexivity|]; split; [reflexivity|]; simpl; discriminate.
Qed.

(** C2 (amended).  In a live state, a move whose in-grid new head lies on
    any segment of the body before the move (the current tail included,
    eating or not) is a self-collision: terminal, food and score kept.  A
    move whose new head is on no segment never collides: it can only end
    the game through a full-grid win, on the food. *)
Theorem self_collision_whole_body (W H : Z) (s : GameState) (i : option Vec)
  (d : list (Z * Z)) (h : Vec) (t : list Vec) :
  game_over s = false -> snake s = h :: t ->
  out_of_bounds W H (vadd h (chosen_dir s i)) = false ->
  (In (vadd h (chosen_dir s i)) (h :: t) ->
     step W H s i d =
       Ok (mkState (vadd h (chosen_dir s i) :: h :: t) (chosen_dir s i) (food s) (score s) true)) /\
  (~ In (vadd h (chosen_dir s i)) (h :: t) ->
     forall s', step W H s i d = Ok s' -> game_over s' = true ->
       vadd h (chosen_dir s i) = food s).
Proof.
  intros Eo Es Eb; rewrite (step_live W H s i d h t Eo Es); cbv zeta; rewrite Eb.
  split.
  - intros Hin; apply mem_In in Hin; rewrite Hin; reflexivity.
  - intros Hn; apply mem_false_not_In in Hn; rewrite Hn; intros s'.
    destruct (Vec_eqb _ (food s)) eqn:Ef.
    + intros _ _; apply Vec_eqb_eq; exact Ef.
    + intros E; injection E as <-; discriminate.
Qed.

Lemma self_collision_whole_body_witness :
  game_over tail_state = false /\
  out_of_bounds GRID_W GRID_H (vadd (mkVec 1 1) (chosen_dir tail_state (Some DIR_RIGHT))) = false /\
  step GRID_W GRID_H tail_state (Some DIR_RIGHT) [] =
    Ok (mkState [mkVec 2 1; mkVec 1 1; mkVec 1 2; mkVec 2 2; mkVec 2 1]
                DIR_RIGHT (mkVec 10 10) 3 true).
Proof.
  split; [reflexivity|]; split; [reflexivity|].
  apply (proj1 (self_collision_whole_body GRID_W GRID_H tail_state (Some DIR_RIGHT) []
                  (mkVec 1 1) [mkVec 1 2; mkVec 2 2; mkVec 2 1] eq_refl eq_refl eq_refl)).
  simpl; auto.
Defined.

(** C2 counterexample: a live, non-eating move into the current tail cell
    is a self-collision. *)
Lemma move_into_tail_collides :
  vadd (mkVec 1 1) DIR_RIGHT = last (snake tail_state) (mkVec 0 0) /\
  vadd (mkVec 1 1) DIR_RIGHT <> food tail_state /\
  exists s', step GRID_W GRID_H tail_state (Some DIR_RIGHT) [] = Ok s' /\
             game_over s' = true.
Proof.
  split; [reflexivity|]; split; [discriminate|].
  eexists; split; reflexivity.
Qed.

(** C3 (amended).  In every reachable state the food is on no body
    segment behind the head; in a live state it is on no segment at all.
    It lies on the body only in the terminal state of a win by filling:
    the food is the head that ate it, it is on the grid, and the head is
    on no other segment, so the state is neither a wall collision nor a
    self collision; the body has at least [W * H] distinct cells and, on
    a grid at least 4 wide and 1 high, it covers every cell of the grid. *)
Theorem food_off_body_except_win (W H : Z) (s : GameState) :
  reachable W H s ->
  ~ In (food s) (tl (snake s)) /\
  (game_over s = false -> ~ In (food s) (snake s)) /\
  (In (food s) (snake s) ->
     game_over s = true /\ food s = hd (food s) (snake s) /\
     in_grid W H (food s) /\ ~ In (hd (food s) (snake s)) (tl (snake s)) /\
     W * H <= Z.of_nat (length (set_of (snake s))) /\
     (4 <= W -> 1 <= H -> forall p, in_grid W H p -> In p (snake s))).
Proof.
  intros Hr; destruct (reachable_Inv W H s Hr) as (Hne & Hf & Htl & Hin & _).
  split; [exact Htl|]; split.
  - intros Eo F; destruct (Hin F) as [C _]; congruence.
  - intros F; destruct (Hin F) as [Eo Hl].
    assert (Eh : food s = hd (food s) (snake s)).
    { destruct (snake s) as [|h t]; [contradiction|].
      destruct F as [F|F]; [symmetry; exact F | contradiction]. }
    split; [exact Eo|]; split; [exact Eh|]; split; [exact Hf|].
    split; [rewrite <- Eh; exact Htl|]; split; [exact Hl|].
    intros HW HH; exact (reachable_food_on_body_fills W H s HW HH Hr F).
Qed.

Lemma food_off_body_except_win_witness :
  reachable GRID_W GRID_H start_state /\ ~ In (food start_state) (snake start_state).
Proof.
  assert (Hr : reachable GRID_W GRID_H start_state)
    by (apply (reach_reset GRID_W GRID_H [(0, 0)]); reflexivity).
  split; [exact Hr|].
  exact (proj1 (proj2 (food_off_body_except_win GRID_W GRID_H start_state Hr)) eq_refl).
Defined.

Lemma fill_check_true :
  won_with_food_on_body
    (s0 <- reset_game GRID_W GRID_H fill_reset_draws ;;
     run_fast GRID_W GRID_H s0 (fill_inputs (mkVec 16 12) fill_moves)) = true.
Proof. vm_compute. reflexivity. Qed.

Lemma won_with_food_on_body_Ok (r : outcome GameState) :
  won_with_food_on_body r = true ->
  exists s, r = Ok s /\ game_over s = true /\ In (food s) (snake s).
Proof.
  destruct r as [s| |]; simpl; try discriminate.
  rewrite andb_true_iff, mem_In; intros [Co Cm]; eauto.
Qed.

(** C3 counterexample: filling the grid from [reset_game] ends in a
    reachable terminal state whose food is on the body. *)
Lemma fill_food_on_body :
  exists s, reachable GRID_W GRID_H s /\ game_over s = true /\ In (food s) (snake s).
Proof.
  destruct (won_with_food_on_body_Ok _ fill_check_true) as (s & E & Co & Cm).
  exists s; split; [|split; assumption].
  apply bind_Ok in E as [s0 [E0 E]].
  rewrite <- (run_fast_eq GRID_W GRID_H s0 _ (reach_reset GRID_W GRID_H _ s0 E0)) in E.
  exact (run_reachable GRID_W GRID_H s0 s _ (reach_reset GRID_W GRID_H _ s0 E0) E).
Qed.

(** C4.  [random_free_cell] raises its no-free-cell [RuntimeError] exactly
    when the occupied set has at least [GRID_W * GRID_H] elements, and
    otherwise only returns in-grid cells outside the set.  On the
    program's grid neither [reset_game] nor [step] lets an exception out
    (a non-empty body assumed for [step]), and a failed placement after
    eating turns the state terminal, with the point scored. *)
Theorem food_placement_errors_contained :
  (forall occ d, random_free_cell GRID_W GRID_H occ d = Raise RuntimeError <->
                 Z.of_nat (length occ) >= GRID_W * GRID_H) /\
  (forall occ d p, random_free_cell GRID_W GRID_H occ d = Ok p ->
                   ~ In p occ /\ in_grid GRID_W GRID_H p) /\
  (forall d e, reset_game GRID_W GRID_H d <> Raise e) /\
  (forall s i d e, snake s <> [] -> step GRID_W GRID_H s i d <> Raise e) /\
  (forall s i d h t, game_over s = false -> snake s = h :: t ->
     out_of_bounds GRID_W GRID_H (vadd h (chosen_dir s i)) = false ->
     ~ In (vadd h (chosen_dir s i)) (h :: t) ->
     vadd h (chosen_dir s i) = food s ->
     Z.of_nat (length (set_of (vadd h (chosen_dir s i) :: h :: t))) >= GRID_W * GRID_H ->
     step GRID_W GRID_H s i d =
       Ok (mkState (vadd h (chosen_dir s i) :: h :: t) (chosen_dir s i) (food s)
                   (score s + 1) true)).
Proof.
  assert (HW : 0 < GRID_W) by reflexivity.
  assert (HH : 0 < GRID_H) by reflexivity.
  split; [apply random_free_cell_runtime|].
  split; [exact (random_free_cell_Ok GRID_W GRID_H)|].
  split.
  { intros d e; unfold reset_game, random_free_cell, set_of.
    rewrite (nodup_fixed_point Vec_eq_dec (reset_body_NoDup GRID_W GRID_H)).
    cbn [length]; change (Z.of_nat 3 >=? GRID_W * GRID_H) with false; cbv iota.
    destruct (sample_loop GRID_W GRID_H _ d) eqn:E; simpl; try discriminate.
    intros Q; injection Q as ->; exact (sample_loop_no_raise GRID_W GRID_H _ d e HW HH E). }
  split.
  { intros s i d e Hne.
    destruct (game_over s) eqn:Eo; [rewrite step_over by exact Eo; discriminate|].
    destruct (snake s) as [|h t] eqn:Es; [contradiction|].
    rewrite (step_live GRID_W GRID_H s i d h t Eo Es); cbv zeta.
    destruct (out_of_bounds _ _ _); [discriminate|].
    destruct (mem _ _); [discriminate|].
    destruct (Vec_eqb _ _); [|discriminate].
    destruct (random_free_cell GRID_W GRID_H _ d) as [f|e'|] eqn:Er; try discriminate.
    pose proof (random_free_cell_raise GRID_W GRID_H _ d e' HW HH Er) as ->; discriminate. }
  intros s i d h t Eo Es Eb Hn Ef Hl.
  rewrite (step_live GRID_W GRID_H s i d h t Eo Es); cbv zeta; rewrite Eb.
  apply mem_false_not_In in Hn; rewrite Hn, Ef, Vec_eqb_refl.
  rewrite <- Ef; apply (random_free_cell_runtime GRID_W GRID_H _ d) in Hl; rewrite Hl.
  rewrite Ef; reflexivity.
Qed.

(** C5 (amended).  [reset_game] checks no grid configuration.  When the
    grid has at most 3 cells it fails with the food-placement
    [RuntimeError] (the no-free-cell signal); when it is narrower than 3
    but has more than 3 cells it returns a live state whose initial body
    has a segment off the grid. *)
Theorem reset_without_config_check (W H : Z) (d : list (Z * Z)) :
  (W * H <= 3 -> reset_game W H d = Raise RuntimeError) /\
  (1 <= W < 3 -> 3 < W * H -> forall s, reset_game W H d = Ok s ->
     game_over s = false /\ exists p, In p (snake s) /\ out_of_bounds W H p = true).
Proof.
  unfold reset_game, random_free_cell, set_of.
  rewrite (nodup_fixed_point Vec_eq_dec (reset_body_NoDup W H)); cbn [length].
  split.
  - intros Hs; destruct (Z.geb_spec (Z.of_nat 3) (W * H)); [reflexivity | lia].
  - intros HW Hs s; destruct (Z.geb_spec (Z.of_nat 3) (W * H)); [lia|].
    intros E; apply bind_Ok in E as [f [_ E]]; injection E as <-.
    split; [reflexivity|].
    eexists; split; [right; right; left; reflexivity|].
    unfold out_of_bounds, vadd, DIR_LEFT; cbn [x y].
    assert (W / 2 <= 1) by (apply Z.div_le_upper_bound; lia).
    destruct (Z.ltb_spec (W / 2 + -1 + -1) 0); [reflexivity | lia].
Qed.

Lemma reset_without_config_check_witness :
  reset_game 2 0 [] = Raise RuntimeError /\
  reset_game 2 2 [(0, 0)] =
    Ok (mkState [mkVec 1 1; mkVec 0 1; mkVec (-1) 1] DIR_RIGHT (mkVec 0 0) 0 false).
Proof.
  split.
  - exact (proj1 (reset_without_config_check 2 0 []) ltac:(lia)).
  - reflexivity.
Defined.

(** C5 counterexample: on a 2 x 2 grid [reset_game] raises no
    configuration error; it returns a live state with the cell
    [(-1, 1)] in the body. *)
Lemma reset_small_grid_succeeds :
  reset_game 2 2 [(0, 0)] =
    Ok (mkState [mkVec 1 1; mkVec 0 1; mkVec (-1) 1] DIR_RIGHT (mkVec 0 0) 0 false) /\
  out_of_bounds 2 2 (mkVec (-1) 1) = true.
Proof. split; reflexivity. Qed.

(** C6.  A terminal state is a fixed point of [step] for every intent and
    every draw, and so of every run of [step]s. *)
Theorem terminal_absorbing (W H : Z) (s : GameState) :
  game_over s = true ->
  (forall i d, step W H s i d = Ok s) /\
  (forall inputs, run W H s inputs = Ok s).
Proof.
  intros Eo; split.
  - intros i d; exact (step_over W H s i d Eo).
  - induction inputs as [|[i d] rest IH]; simpl; [reflexivity|].
    rewrite (step_over W H s i d Eo); exact IH.
Qed.

Lemma terminal_absorbing_witness :
  step GRID_W GRID_H (mkState [mkVec 32 12; mkVec 31 12] DIR_RIGHT (mkVec 0 0) 4 true)
       (Some DIR_UP) [(3, 3)] =
    Ok (mkState [mkVec 32 12; mkVec 31 12] DIR_RIGHT (mkVec 0 0) 4 true).
Proof.
  exact (proj1 (terminal_absorbing GRID_W GRID_H
                  (mkState [mkVec 32 12; mkVec 31 12] DIR_RIGHT (mkVec 0 0) 4 true) eq_refl)
               (Some DIR_UP) [(3, 3)]).
Defined.

(** C7.  In every reachable live state the body has no duplicate cell. *)
Theorem reachable_live_body_NoDup (W H : Z) (s : GameState) :
  reachable W H s -> game_over s = false -> NoDup (snake s).
Proof.
  intros Hr Eo; destruct (reachable_Inv W H s Hr) as (_ & _ & _ & _ & Hnd); exact (Hnd Eo).
Qed.

Lemma reachable_live_body_NoDup_witness :
  reachable GRID_W GRID_H start_state /\ NoDup (snake start_state).
Proof.
  assert (Hr : reachable GRID_W GRID_H start_state)
    by (apply (reach_reset GRID_W GRID_H [(0, 0)]); reflexivity).
  split; [exact Hr|].
  exact (reachable_live_body_NoDup GRID_W GRID_H start_state Hr eq_refl).
Defined.

(** C8.  With a key for direction [d] in a live state, the heading after
    [step] is the old heading when [d] is its exact opposite and [d]
    otherwise, and the new head is the old head moved by that heading.
    In particular heading right with intent left keeps heading right and
    moves the head one cell right. *)
Theorem intent_reversal_rejected (W H : Z) (s s' : GameState) (d : Vec) (draws : list (Z * Z)) :
  snake s <> [] -> game_over s = false ->
  step W H s (Some d) draws = Ok s' ->
  direction s' = (if is_opposite d (direction s) then direction s else d) /\
  hd (mkVec 0 0) (snake s') = vadd (hd (mkVec 0 0) (snake s)) (direction s') /\
  (direction s = DIR_RIGHT -> d = DIR_LEFT ->
     direction s' = DIR_RIGHT /\ hd (mkVec 0 0) (snake s') = vadd (hd (mkVec 0 0) (snake s)) DIR_RIGHT).
Proof.
  intros _ Eo E.
  destruct (step_direction W H s s' (Some d) draws Eo E) as [Ed Eh].
  assert (Ec : chosen_dir s (Some d) = if is_opposite d (direction s) then direction s else d).
  { unfold chosen_dir, pending_of_keys, handle_dir_key; simpl; rewrite Eo; simpl.
    destruct (is_opposite d (direction s)); reflexivity. }
  rewrite Ec in Ed, Eh; rewrite <- Ed in Eh.
  split; [exact Ed|]; split; [exact Eh|].
  intros Er Dl; subst d; rewrite Er in Ed; simpl in Ed; rewrite Ed in Eh |- *.
  split; [reflexivity | exact Eh].
Qed.

Lemma intent_reversal_rejected_witness :
  step GRID_W GRID_H start_state (Some DIR_LEFT) [] =
    Ok (mkState [mkVec 17 12; mkVec 16 12; mkVec 15 12] DIR_RIGHT (mkVec 0 0) 0 false) /\
  direction (mkState [mkVec 17 12; mkVec 16 12; mkVec 15 12] DIR_RIGHT (mkVec 0 0) 0 false)
    = DIR_RIGHT.
Proof.
  assert (E : step GRID_W GRID_H start_state (Some DIR_LEFT) [] =
    Ok (mkState [mkVec 17 12; mkVec 16 12; mkVec 15 12] DIR_RIGHT (mkVec 0 0) 0 false))
    by reflexivity.
  split; [exact E|].
  exact (proj1 (proj2 (proj2 (intent_reversal_rejected GRID_W GRID_H start_state _ DIR_LEFT []
           ltac:(discriminate) eq_refl E)) eq_refl eq_refl)).
Defined.

(** C9.  Along a run from [reset_game]: the reset score is 0; every
    step adds 1 to the score when it is a food-eating transition and
    nothing otherwise; the final score is the number of food-eating
    transitions; the score of every prefix is at most the final score. *)
Theorem score_counts_eats (W H : Z) (d0 : list (Z * Z)) (s0 s : GameState)
  (inputs : list (option Vec * list (Z * Z))) :
  reset_game W H d0 = Ok s0 -> run W H s0 inputs = Ok s ->
  score s0 = 0 /\
  score s = Z.of_nat (count_eats W H s0 inputs) /\
  (forall pre i d post m m', inputs = pre ++ (i, d) :: post ->
     run W H s0 pre = Ok m -> step W H m i d = Ok m' ->
     score m' = score m + (if eats m i then 1 else 0)) /\
  (forall pre post m, inputs = pre ++ post -> run W H s0 pre = Ok m -> score m <= score s).
Proof.
  intros E0 E.
  assert (Hr0 : reachable W H s0) by exact (reach_reset W H d0 s0 E0).
  assert (Hs0 : score s0 = 0).
  { unfold reset_game in E0; apply bind_Ok in E0 as [f [_ E0]]; injection E0 as <-; reflexivity. }
  split; [exact Hs0|]; split.
  { rewrite (run_score W H s0 s inputs Hr0 E), Hs0; lia. }
  split.
  - intros pre i d post m m' _ Em Em'.
    exact (step_score W H m m' i d (reachable_Inv W H m (run_reachable W H s0 m pre Hr0 Em)) Em').
  - intros pre post m -> Em.
    rewrite run_app, Em in E; simpl in E.
    pose proof (run_score W H m s post (run_reachable W H s0 m pre Hr0 Em) E); lia.
Qed.

Lemma score_counts_eats_witness :
  reset_game GRID_W GRID_H [(17, 12)] =
    Ok (mkState [mkVec 16 12; mkVec 15 12; mkVec 14 12] DIR_RIGHT (mkVec 17 12) 0 false) /\
  score (mkState [mkVec 17 12; mkVec 16 12; mkVec 15 12; mkVec 14 12]
                 DIR_RIGHT (mkVec 0 0) 1 false) = 1%Z.
Proof.
  assert (E0 : reset_game GRID_W GRID_H [(17, 12)] =
    Ok (mkState [mkVec 16 12; mkVec 15 12; mkVec 14 12] DIR_RIGHT (mkVec 17 12) 0 false))
    by reflexivity.
  assert (E : run GRID_W GRID_H
    (mkState [mkVec 16 12; mkVec 15 12; mkVec 14 12] DIR_RIGHT (mkVec 17 12) 0 false)
    [(None, [(0, 0)])] =
    Ok (mkState [mkVec 17 12; mkVec 16 12; mkVec 15 12; mkVec 14 12]
                DIR_RIGHT (mkVec 0 0) 1 false)) by reflexivity.
  split; [exact E0|].
  exact (proj1 (proj2 (score_counts_eats GRID_W GRID_H _ _ _ _ E0 E))).
Defined.

(** C10.  [random_free_cell] judges fullness by the size of the occupied
    set only: a set of [GRID_W * GRID_H] distinct cells all off the grid,
    which leaves every grid cell free, makes it raise [RuntimeError]. *)
Theorem full_by_cardinality_only :
  NoDup off_grid_cells /\
  Z.of_nat (length off_grid_cells) >= GRID_W * GRID_H /\
  (forall p, In p off_grid_cells -> out_of_bounds GRID_W GRID_H p = true) /\
  (forall p, in_grid GRID_W GRID_H p -> ~ In p off_grid_cells) /\
  (forall d, random_free_cell GRID_W GRID_H off_grid_cells d = Raise RuntimeError).
Proof.
  assert (Hl : Z.of_nat (length off_grid_cells) = GRID_W * GRID_H).
  { unfold off_grid_cells; rewrite length_map, length_seq; reflexivity. }
  assert (Hx : forall p, In p off_grid_cells -> x p = -1).
  { unfold off_grid_cells; intros p Hp; apply in_map_iff in Hp as [i [<- _]]; reflexivity. }
  split.
  { unfold off_grid_cells; apply Finite.Injective_map_NoDup; [|apply seq_NoDup].
    intros i j E; injection E; lia. }
  split; [lia|]; split.
  { intros p Hp; unfold out_of_bounds; rewrite (Hx p Hp); reflexivity. }
  split.
  { intros p [[Hp _] _] Hin; rewrite (Hx p Hin) in Hp; lia. }
  intros d; apply random_free_cell_runtime; lia.
Qed.

(** ** Further properties of the code *)

(** X1.  In a live state, a frame whose events neither quit nor press R
    runs the update once, with the last direction key that is not the
    exact opposite of the heading the frame started with (keys are not
    checked against each other), or with no new heading if there is
    none. *)
Theorem frame_live_last_direction (W H : Z) (st : GameState) (evs : list event)
  (rd fd : list (Z * Z)) :
  game_over st = false -> forallb plain_event evs = true ->
  frame W H st evs rd fd =
    (s' <- update W H st (last_non_reversing (direction st) (dir_keys evs)) fd ;;
     Ok (Next s')).
Proof.
  intros Eo Hp; unfold frame.
  pose proof (handle_events_plain_app W H st None evs [] rd Hp) as E.
  rewrite app_nil_r in E; rewrite E; cbn [handle_events bind].
  rewrite fold_handle_dir_key by exact Eo; reflexivity.
Qed.

Lemma frame_live_last_direction_witness :
  forallb plain_event [KEYDOWN K_UP; OTHER_EVENT; KEYDOWN K_a; KEYDOWN (K_other 7)] = true /\
  frame GRID_W GRID_H start_state
    [KEYDOWN K_UP; OTHER_EVENT; KEYDOWN K_a; KEYDOWN (K_other 7)] [] [] =
    (s' <- update GRID_W GRID_H start_state (Some DIR_UP) [] ;; Ok (Next s')).
Proof.
  split; [reflexivity|].
  exact (frame_live_last_direction GRID_W GRID_H start_state
           [KEYDOWN K_UP; OTHER_EVENT; KEYDOWN K_a; KEYDOWN (K_other 7)] [] []
           eq_refl eq_refl).
Defined.

(** X2.  A frame from a live state that does not exit never restarts the
    game: its result is the update of that same state with a pending
    direction that does not reverse the heading, so the new heading is
    the old one or one that is not its exact opposite. *)
Theorem live_frame_never_reverses (W H : Z) (st s' : GameState) (evs : list event)
  (rd fd : list (Z * Z)) :
  game_over st = false -> frame W H st evs rd fd = Ok (Next s') ->
  exists p, update W H st p fd = Ok s' /\
    (forall c, p = Some c -> is_opposite c (direction st) = false) /\
    (direction s' = direction st \/ is_opposite (direction s') (direction st) = false).
Proof.
  intros Eo E; unfold frame in E.
  destruct (handle_events W H st None evs rd) as [[[st' p]|]| e |] eqn:Eh;
    cbn [bind] in E; try discriminate.
  destruct (handle_events_live W H st st' None p evs rd Eo
              ltac:(discriminate) Eh) as [-> Hp].
  destruct (update W H st p fd) as [s''| e |] eqn:Eu; cbn [bind] in E; try discriminate.
  injection E as <-.
  exists p; split; [exact Eu|]; split; [exact Hp|].
  rewrite (update_direction W H st s'' p fd Eo Eu).
  destruct p as [c|]; [right; exact (Hp c eq_refl) | left; reflexivity].
Qed.

Lemma live_frame_never_reverses_witness :
  frame GRID_W GRID_H start_state [KEYDOWN K_LEFT; KEYDOWN K_r] [] [] =
    Ok (Next (mkState [mkVec 17 12; mkVec 16 12; mkVec 15 12] DIR_RIGHT (mkVec 0 0) 0 false)) /\
  exists p, update GRID_W GRID_H start_state p [] =
    Ok (mkState [mkVec 17 12; mkVec 16 12; mkVec 15 12] DIR_RIGHT (mkVec 0 0) 0 false).
Proof.
  assert (E : frame GRID_W GRID_H start_state [KEYDOWN K_LEFT; KEYDOWN K_r] [] [] =
    Ok (Next (mkState [mkVec 17 12; mkVec 16 12; mkVec 15 12] DIR_RIGHT (mkVec 0 0) 0 false)))
    by reflexivity.
  split; [exact E|].
  destruct (live_frame_never_reverses GRID_W GRID_H start_state _ _ [] [] eq_refl E)
    as [p [Hu _]].
  exists p; exact Hu.
Defined.

(** X3.  A QUIT event, or an Escape or q key, ends the program with
    exit code 0 as soon as the loop reaches it, that is whenever the
    events before it (restarts included) have not ended the program: the
    events after it and the game update of that frame are skipped. *)
Theorem quit_exits_zero (W H : Z) (st st' : GameState) (p : option Vec)
  (pre post : list event) (e : event) (rd fd : list (Z * Z)) :
  handle_events W H st None pre rd = Ok (Some (st', p)) ->
  (e = QUIT \/ exists k, e = KEYDOWN k /\ is_quit_key k = true) ->
  frame W H st (pre ++ e :: post) rd fd = Ok (Exit 0).
Proof.
  intros Hp He; unfold frame; rewrite handle_events_app, Hp; cbn [bind].
  destruct He as [-> | [k [-> Hk]]]; cbn [handle_events]; [reflexivity|].
  rewrite Hk; reflexivity.
Qed.

Lemma quit_exits_zero_witness :
  handle_events GRID_W GRID_H start_state None [KEYDOWN K_UP; KEYDOWN K_r] [] =
    Ok (Some (start_state, Some DIR_UP)) /\
  frame GRID_W GRID_H start_state [KEYDOWN K_UP; KEYDOWN K_r; KEYDOWN K_q; KEYDOWN K_LEFT]
    [] [] = Ok (Exit 0).
Proof.
  assert (Hp : handle_events GRID_W GRID_H start_state None [KEYDOWN K_UP; KEYDOWN K_r] [] =
    Ok (Some (start_state, Some DIR_UP))) by reflexivity.
  split; [exact Hp|].
  exact (quit_exits_zero GRID_W GRID_H start_state start_state (Some DIR_UP)
           [KEYDOWN K_UP; KEYDOWN K_r] [KEYDOWN K_LEFT] (KEYDOWN K_q) [] [] Hp
           (or_intror (ex_intro _ K_q (conj eq_refl eq_refl)))).
Defined.

(** X4.  In a terminal state, an R key restarts the game inside the
    frame: direction keys before it are dropped, and the rest of the
    frame, its game update included, runs on the fresh state, exactly
    as a frame of the remaining events from that state. *)
Theorem restart_in_frame (W H : Z) (st s0 : GameState) (pre rest : list event)
  (rd fd : list (Z * Z)) :
  game_over st = true -> forallb plain_event pre = true ->
  reset_game W H rd = Ok s0 ->
  frame W H st (pre ++ KEYDOWN K_r :: rest) rd fd = frame W H s0 rest rd fd.
Proof.
  intros Eo Hp Er; unfold frame; rewrite handle_events_plain_app by exact Hp.
  rewrite fold_handle_dir_key_over by exact Eo.
  cbn [handle_events is_quit_key is_r]; rewrite Eo; cbn [andb]; rewrite Er; reflexivity.
Qed.

Lemma restart_in_frame_witness :
  reset_game GRID_W GRID_H [(0, 0)] = Ok start_state /\
  frame GRID_W GRID_H
    (mkState [mkVec 32 12; mkVec 31 12; mkVec 30 12; mkVec 29 12] DIR_RIGHT (mkVec 0 0) 0 true)
    [KEYDOWN K_DOWN; KEYDOWN K_r; KEYDOWN K_UP] [(0, 0)] [] =
    frame GRID_W GRID_H start_state [KEYDOWN K_UP] [(0, 0)] [].
Proof.
  assert (Er : reset_game GRID_W GRID_H [(0, 0)] = Ok start_state) by reflexivity.
  split; [exact Er|].
  exact (restart_in_frame GRID_W GRID_H
    (mkState [mkVec 32 12; mkVec 31 12; mkVec 30 12; mkVec 29 12] DIR_RIGHT (mkVec 0 0) 0 true)
    start_state [KEYDOWN K_DOWN] [KEYDOWN K_UP] [(0, 0)] [] eq_refl eq_refl Er).
Defined.

(** X5.  A terminal state stays on screen unchanged: a frame whose events
    neither quit nor press R ignores its direction keys and returns the
    same state. *)
Theorem terminal_frame_frozen (W H : Z) (st : GameState) (evs : list event)
  (rd fd : list (Z * Z)) :
  game_over st = true -> forallb plain_event evs = true ->
  frame W H st evs rd fd = Ok (Next st).
Proof.
  intros Eo Hp; unfold frame.
  pose proof (handle_events_plain_app W H st None evs [] rd Hp) as E.
  rewrite app_nil_r in E; rewrite E, fold_handle_dir_key_over by exact Eo.
  cbn [handle_events bind]; unfold update; rewrite Eo; reflexivity.
Qed.

Lemma terminal_frame_frozen_witness :
  frame GRID_W GRID_H
    (mkState [mkVec 32 12; mkVec 31 12; mkVec 30 12; mkVec 29 12] DIR_RIGHT (mkVec 0 0) 0 true)
    [KEYDOWN K_UP; KEYDOWN K_LEFT; OTHER_EVENT] [] [] =
  Ok (Next
    (mkState [mkVec 32 12; mkVec 31 12; mkVec 30 12; mkVec 29 12] DIR_RIGHT (mkVec 0 0) 0 true)).
Proof.
  exact (terminal_frame_frozen GRID_W GRID_H
    (mkState [mkVec 32 12; mkVec 31 12; mkVec 30 12; mkVec 29 12] DIR_RIGHT (mkVec 0 0) 0 true)
    [KEYDOWN K_UP; KEYDOWN K_LEFT; OTHER_EVENT] [] [] eq_refl eq_refl).
Defined.

(** X6.  In every state reachable from [reset_game] the body length is
    3 plus the score while the game is live; a terminal state has length
    3 plus the score (won by filling the grid) or 4 plus the score (a
    collision, whose new head was put in front of the body). *)
Theorem reachable_length_score (W H : Z) (s : GameState) :
  reachable W H s ->
  (game_over s = false -> Z.of_nat (length (snake s)) = 3 + score s) /\
  (Z.of_nat (length (snake s)) = 3 + score s \/ Z.of_nat (length (snake s)) = 4 + score s).
Proof. exact (reachable_length W H s). Qed.

Lemma reachable_length_score_witness :
  reachable GRID_W GRID_H start_state /\
  Z.of_nat (length (snake start_state)) = 3 + score start_state.
Proof.
  assert (Hr : reachable GRID_W GRID_H start_state)
    by (apply (reach_reset GRID_W GRID_H [(0, 0)]); reflexivity).
  split; [exact Hr|].
  exact (proj1 (reachable_length_score GRID_W GRID_H start_state Hr) eq_refl).
Defined.

(** X7.  On a grid at least 4 cells wide and 1 high, every segment of the
    body of a live reachable state is on the grid. *)
Theorem reachable_live_body_on_grid (W H : Z) (s : GameState) :
  4 <= W -> 1 <= H -> reachable W H s -> game_over s = false ->
  Forall (in_grid W H) (snake s).
Proof. exact (reachable_body_in_grid W H s). Qed.

Lemma reachable_live_body_on_grid_witness :
  reachable GRID_W GRID_H start_state /\ Forall (in_grid GRID_W GRID_H) (snake start_state).
Proof.
  assert (Hr : reachable GRID_W GRID_H start_state)
    by (apply (reach_reset GRID_W GRID_H [(0, 0)]); reflexivity).
  split; [exact Hr|].
  exact (reachable_live_body_on_grid GRID_W GRID_H start_state
           ltac:(unfold GRID_W; lia) ltac:(unfold GRID_H; lia) Hr eq_refl).
Defined.

(** X8.  On a grid at least 4 cells wide and 1 high, the score of a live
    reachable state is at most [W * H - 3]: the body holds 3 plus the
    score distinct cells of the grid. *)
Theorem reachable_live_score_bound (W H : Z) (s : GameState) :
  4 <= W -> 1 <= H -> reachable W H s -> game_over s = false ->
  score s <= W * H - 3.
Proof.
  intros HW HH Hr Eo.
  destruct (reachable_Inv W H s Hr) as (_ & _ & _ & _ & Hnd).
  specialize (Hnd Eo).
  pose proof (reachable_body_in_grid W H s HW HH Hr Eo) as Hg.
  destruct (reachable_length W H s Hr) as [Hl _]; specialize (Hl Eo).
  assert (Hi : incl (snake s) (all_cells W H)).
  { intros q Hq; apply all_cells_In; rewrite Forall_forall in Hg; exact (Hg q Hq). }
  pose proof (NoDup_incl_length Hnd Hi) as Hle.
  rewrite all_cells_length in Hle.
  apply Nat2Z.inj_le in Hle; rewrite Nat2Z.inj_mul, !Z2Nat.id in Hle by lia.
  lia.
Qed.

Lemma reachable_live_score_bound_witness :
  reachable GRID_W GRID_H start_state /\ score start_state <= GRID_W * GRID_H - 3.
Proof.
  assert (Hr : reachable GRID_W GRID_H start_state)
    by (apply (reach_reset GRID_W GRID_H [(0, 0)]); reflexivity).
  split; [exact Hr|].
  exact (reachable_live_score_bound GRID_W GRID_H start_state
           ltac:(unfold GRID_W; lia) ltac:(unfold GRID_H; lia) Hr eq_refl).
Defined.

(** X9.  Food placement can return every free cell of the grid: when the
    occupied set leaves a cell free and the first draw names that cell,
    [random_free_cell] returns it, whatever the later draws. *)
Theorem random_free_cell_reaches_free_cell (W H : Z) (occ : list Vec) (p : Vec)
  (ds : list (Z * Z)) :
  in_grid W H p -> ~ In p occ -> Z.of_nat (length occ) < W * H ->
  random_free_cell W H occ ((x p, y p) :: ds) = Ok p.
Proof.
  intros [Hx Hy] Hn Hl; unfold random_free_cell.
  replace (Z.of_nat (length occ) >=? W * H) with false
    by (symmetry; rewrite Z.geb_leb; apply Z.leb_gt; exact Hl).
  cbn [sample_loop]; unfold randrange.
  replace (W <=? 0) with false by (symmetry; apply Z.leb_gt; lia).
  replace (H <=? 0) with false by (symmetry; apply Z.leb_gt; lia).
  cbn [bind]; rewrite !Z.mod_small by lia.
  destruct p as [px py]; cbn [x y].
  apply mem_false_not_In in Hn; rewrite Hn; reflexivity.
Qed.

Lemma random_free_cell_reaches_free_cell_witness :
  random_free_cell GRID_W GRID_H [mkVec 16 12; mkVec 15 12; mkVec 14 12]
    [(31, 23); (0, 0)] = Ok (mkVec 31 23).
Proof.
  exact (random_free_cell_reaches_free_cell GRID_W GRID_H _ (mkVec 31 23) [(0, 0)]
           ltac:(unfold in_grid, GRID_W, GRID_H; cbn [x y]; lia)
           (proj1 (mem_false_not_In (mkVec 31 23) [mkVec 16 12; mkVec 15 12; mkVec 14 12]) eq_refl)
           ltac:(reflexivity)).
Defined.

(** *** States of the main loop *)

Lemma key_to_dir_is_dir (k : key) (d : Vec) : key_to_dir k = Some d -> is_dir d.
Proof.
  unfold is_dir; destruct k; cbn [key_to_dir]; intros E; try discriminate;
    injection E as <-; tauto.
Qed.

Lemma linked_removelast (l : list Vec) : linked l -> linked (removelast l).
Proof.
  induction l as [|a t IH]; [cbn; tauto|].
  destruct t as [|b t']; [cbn; tauto|].
  intros [Hab Ht]; specialize (IH Ht).
  destruct t' as [|c t'']; [cbn; tauto|].
  rewrite removelast_cons_cons.
  rewrite removelast_cons_cons in IH |- *.
  split; [exact Hab | exact IH].
Qed.

Section LoopInv.

Variables W H : Z.
Variable Q : GameState -> Prop.
Variable rd : list (Z * Z).
Hypothesis Q_reset : forall s, reset_game W H rd = Ok s -> Q s.

(** What the event loop keeps: the property [Q] of the state, and a
    pending direction that is a direction constant accepted in a live
    state. *)
Lemma handle_events_inv (st st' : GameState) (p p' : option Vec) (evs : list event) :
  Q st ->
  (p = None \/ exists c, p = Some c /\ is_dir c /\ game_over st = false /\
                         is_opposite c (direction st) = false) ->
  handle_events W H st p evs rd = Ok (Some (st', p')) ->
  Q st' /\
  (p' = None \/ exists c, p' = Some c /\ is_dir c /\ game_over st' = false /\
                          is_opposite c (direction st') = false).
Proof.
  revert st p; induction evs as [|e rest IH]; intros st p HQ Hp; cbn [handle_events].
  - intros E; injection E as <- <-; split; assumption.
  - destruct e as [|k|]; [discriminate| |apply IH; assumption].
    destruct (is_quit_key k); [discriminate|].
    destruct (game_over st && is_r k).
    + destruct (reset_game W H rd) as [s0| e |] eqn:Es; cbn [bind]; try discriminate.
      apply IH; [exact (Q_reset s0 eq_refl) | left; reflexivity].
    + destruct (key_to_dir k) as [cand|] eqn:Ek; [|apply IH; assumption].
      apply IH; [exact HQ|]; unfold handle_dir_key.
      destruct (game_over st) eqn:Eo; cbn [negb]; [exact Hp|].
      destruct (is_opposite cand (direction st)) eqn:Ec; cbn [negb]; [exact Hp|].
      right; exists cand; split; [reflexivity|].
      split; [exact (key_to_dir_is_dir k cand Ek) | split; auto].
Qed.

End LoopInv.

Lemma frame_inv (W H : Z) (Q : GameState -> Prop) (st s' : GameState) (evs : list event)
  (rd fd : list (Z * Z)) :
  (forall s, reset_game W H rd = Ok s -> Q s) ->
  (forall s p s', Q s ->
     (p = None \/ exists c, p = Some c /\ is_dir c /\ game_over s = false /\
                            is_opposite c (direction s) = false) ->
     update W H s p fd = Ok s' -> Q s') ->
  Q st -> frame W H st evs rd fd = Ok (Next s') -> Q s'.
Proof.
  intros Hreset Hupd HQ E; unfold frame in E.
  destruct (handle_events W H st None evs rd) as [[[st' p]|]| e |] eqn:Eh;
    cbn [bind] in E; try discriminate.
  destruct (handle_events_inv W H Q rd Hreset st st' None p evs HQ (or_introl eq_refl) Eh)
    as [HQ' Hp].
  destruct (update W H st' p fd) as [s''| e |] eqn:Eu; cbn [bind] in E; try discriminate.
  injection E as <-; exact (Hupd st' p s'' HQ' Hp Eu).
Qed.

Lemma update_linked (W H : Z) (s s' : GameState) (p : option Vec) (fd : list (Z * Z)) :
  is_dir (direction s) /\ linked (snake s) ->
  (p = None \/ exists c, p = Some c /\ is_dir c /\ game_over s = false /\
                         is_opposite c (direction s) = false) ->
  update W H s p fd = Ok s' -> is_dir (direction s') /\ linked (snake s').
Proof.
  intros [Hd Hl] Hp; unfold update.
  destruct (game_over s); [intros E; injection E as <-; split; assumption|].
  assert (Hdir : is_dir (match p with Some d => d | None => direction s end)).
  { destruct Hp as [-> | [c [-> [Hc _]]]]; assumption. }
  revert Hdir; generalize (match p with Some d => d | None => direction s end) as dir.
  intros dir Hdir.
  destruct (snake s) as [|h t] eqn:Es; cbn [move_snake bind tl]; [discriminate|].
  assert (Hn : linked (vadd h dir :: h :: t)).
  { split; [|exact Hl].
    unfold is_dir, DIR_UP, DIR_DOWN, DIR_LEFT, DIR_RIGHT in Hdir.
    destruct h as [hx hy]; unfold vadd; cbn [x y].
    destruct Hdir as [-> | [-> | [-> | ->]]]; cbn [x y]; lia. }
  destruct (out_of_bounds W H _); [intros E; injection E as <-; split; assumption|].
  destruct (mem _ _); [intros E; injection E as <-; split; assumption|].
  destruct (Vec_eqb _ _).
  - destruct (random_free_cell _ _ _ _) as [f|[]|]; try discriminate;
      intros E; injection E as <-; split; assumption.
  - intros E; injection E as <-; split; [exact Hdir | exact (linked_removelast _ Hn)].
Qed.

Lemma update_reachable (W H : Z) (s s' : GameState) (p : option Vec) (fd : list (Z * Z)) :
  reachable W H s ->
  (p = None \/ exists c, p = Some c /\ is_dir c /\ game_over s = false /\
                         is_opposite c (direction s) = false) ->
  update W H s p fd = Ok s' -> reachable W H s'.
Proof.
  intros Hr Hp Eu; apply (reach_step W H s p fd s' Hr).
  destruct Hp as [-> | [c [-> [_ [Eo Ec]]]]]; [exact Eu|].
  unfold step, pending_of_keys; cbn [fold_left]; unfold handle_dir_key.
  rewrite Eo, Ec; exact Eu.
Qed.

Lemma loop_reachable_reachable (W H : Z) (s : GameState) :
  loop_reachable W H s -> reachable W H s.
Proof.
  induction 1 as [d s E | s s' evs rd fd _ IH E].
  - exact (reach_reset W H d s E).
  - refine (frame_inv W H (reachable W H) s s' evs rd fd _ _ IH E).
    + intros s0 Es; exact (reach_reset W H rd s0 Es).
    + intros s0 p s1 Hr Hp Eu; exact (update_reachable W H s0 s1 p fd Hr Hp Eu).
Qed.

(** X10.  Every state of the main loop (the first reset, then one state
    per iteration that does not exit) is reachable by [reset_game] and
    [step], so the properties of reachable states hold for the program's
    loop. *)
Theorem loop_states_reachable (W H : Z) (s : GameState) :
  loop_reachable W H s -> reachable W H s.
Proof. exact (loop_reachable_reachable W H s). Qed.

Lemma loop_states_reachable_witness :
  loop_reachable GRID_W GRID_H
    (mkState [mkVec 16 11; mkVec 16 12; mkVec 15 12] DIR_UP (mkVec 0 0) 0 false) /\
  reachable GRID_W GRID_H
    (mkState [mkVec 16 11; mkVec 16 12; mkVec 15 12] DIR_UP (mkVec 0 0) 0 false).
Proof.
  assert (Hl : loop_reachable GRID_W GRID_H
    (mkState [mkVec 16 11; mkVec 16 12; mkVec 15 12] DIR_UP (mkVec 0 0) 0 false)).
  { refine (loop_next GRID_W GRID_H start_state _ [KEYDOWN K_UP] [] [] _ _);
      [apply (loop_start GRID_W GRID_H [(0, 0)]) |]; reflexivity. }
  split; [exact Hl | exact (loop_states_reachable GRID_W GRID_H _ Hl)].
Defined.

(** X11.  In every state of the main loop the heading is one of the four
    direction constants and consecutive body segments are side
    neighbours; this holds in terminal states too, where the off-grid or
    colliding head is a neighbour of the old head. *)
Theorem loop_states_linked (W H : Z) (s : GameState) :
  loop_reachable W H s -> is_dir (direction s) /\ linked (snake s).
Proof.
  induction 1 as [d s E | s s' evs rd fd _ IH E].
  - unfold reset_game in E; apply bind_Ok in E as [f [_ E]]; injection E as <-.
    cbn [direction snake]; split; [unfold is_dir; tauto|].
    unfold vadd, DIR_LEFT; cbn [linked x y]; lia.
  - refine (frame_inv W H (fun s => is_dir (direction s) /\ linked (snake s))
              s s' evs rd fd _ _ IH E).
    + intros s0 Es; unfold reset_game in Es; apply bind_Ok in Es as [f [_ Es]].
      injection Es as <-; cbn [direction snake]; split; [unfold is_dir; tauto|].
      unfold vadd, DIR_LEFT; cbn [linked x y]; lia.
    + intros s0 p s1 Hq Hp Eu; exact (update_linked W H s0 s1 p fd Hq Hp Eu).
Qed.

Lemma loop_states_linked_witness :
  loop_reachable GRID_W GRID_H start_state /\ linked (snake start_state).
Proof.
  assert (Hl : loop_reachable GRID_W GRID_H start_state)
    by (apply (loop_start GRID_W GRID_H [(0, 0)]); reflexivity).
  split; [exact Hl | exact (proj2 (loop_states_linked GRID_W GRID_H start_state Hl))].
Defined.

(** *** The cells drawn in a frame *)


Lemma draw_cell_inside (p : Vec) : in_grid GRID_W GRID_H p -> rect_inside (draw_cell p).
Proof.
  unfold in_grid, rect_inside, draw_cell, WIDTH, HEIGHT, GRID_W, GRID_H, CELL_SIZE;
    cbn [left top rwidth rheight]; lia.
Qed.

Lemma draw_cell_outside (p : Vec) :
  out_of_bounds GRID_W GRID_H p = true -> rect_outside (draw_cell p).
Proof.
  unfold out_of_bounds, rect_outside, draw_cell, WIDTH, HEIGHT, GRID_W, GRID_H, CELL_SIZE.
  cbn [left top rwidth rheight].
  rewrite !orb_true_iff, !Z.geb_leb, !Z.ltb_lt, !Z.leb_le; lia.
Qed.



(** X12.  A cell is drawn entirely inside the window when it is on the
    grid, and entirely outside it (no pixel shown) when [out_of_bounds]
    holds for it. *)
Theorem draw_cell_window (p : Vec) :
  (out_of_bounds GRID_W GRID_H p = false -> rect_inside (draw_cell p)) /\
  (out_of_bounds GRID_W GRID_H p = true -> rect_outside (draw_cell p)).
Proof.
  split; [intros E; apply draw_cell_inside, out_of_bounds_false, E | apply draw_cell_outside].
Qed.


Lemma draw_cell_window_witness :
  out_of_bounds GRID_W GRID_H (mkVec 32 12) = true /\ rect_outside (draw_cell (mkVec 32 12)).
Proof.
  split; [reflexivity|].
  exact (proj2 (draw_cell_window (mkVec 32 12)) eq_refl).
Defined.


(** *** No exception escapes the main loop *)

Lemma reset_game_grid_no_raise (d : list (Z * Z)) (e : exc) :
  reset_game GRID_W GRID_H d <> Raise e.
Proof.
  unfold reset_game, random_free_cell, set_of.
  rewrite (nodup_fixed_point Vec_eq_dec (reset_body_NoDup GRID_W GRID_H)).
  cbn [length]; change (Z.of_nat 3 >=? GRID_W * GRID_H) with false; cbv iota.
  destruct (sample_loop GRID_W GRID_H _ d) eqn:E; cbn [bind]; try discriminate.
  intros Q; injection Q as ->.
  exact (sample_loop_no_raise GRID_W GRID_H _ d e ltac:(reflexivity) ltac:(reflexivity) E).
Qed.

Lemma update_no_raise (W H : Z) (s : GameState) (p : option Vec) (fd : list (Z * Z))
  (e : exc) :
  0 < W -> 0 < H -> snake s <> [] -> update W H s p fd <> Raise e.
Proof.
  intros HW HH Hne; unfold update.
  destruct (game_over s); [discriminate|].
  destruct (snake s) as [|h t]; [contradiction|]; cbn [move_snake bind tl].
  destruct (out_of_bounds W H _); [discriminate|].
  destruct (mem _ _); [discriminate|].
  destruct (Vec_eqb _ _); [|discriminate].
  destruct (random_free_cell W H _ fd) as [f|e'|] eqn:Er; try discriminate.
  pose proof (random_free_cell_raise W H _ fd e' HW HH Er) as ->; discriminate.
Qed.

Lemma handle_events_grid_no_raise (st : GameState) (p : option Vec) (evs : list event)
  (rd : list (Z * Z)) (e : exc) :
  handle_events GRID_W GRID_H st p evs rd <> Raise e.
Proof.
  revert st p; induction evs as [|ev rest IH]; intros st p; cbn [handle_events];
    [discriminate|].
  destruct ev as [|k|]; [discriminate| |apply IH].
  destruct (is_quit_key k); [discriminate|].
  destruct (game_over st && is_r k).
  - destruct (reset_game GRID_W GRID_H rd) as [s0| e' |] eqn:Es; cbn [bind];
      [apply IH | | discriminate].
    intros Q; injection Q as ->; exact (reset_game_grid_no_raise rd e Es).
  - destruct (key_to_dir k); apply IH.
Qed.

(** X14.  On the program's grid no iteration of the main loop raises:
    from every state the loop reaches, the events of a frame (restarts
    included) and its game update end in an exit or a next state, never
    in an exception. *)
Theorem loop_never_raises (st : GameState) (evs : list event) (rd fd : list (Z * Z))
  (e : exc) :
  loop_reachable GRID_W GRID_H st -> frame GRID_W GRID_H st evs rd fd <> Raise e.
Proof.
  intros Hl; unfold frame.
  destruct (handle_events GRID_W GRID_H st None evs rd) as [[[st' p]|]| e' |] eqn:Eh;
    cbn [bind]; try discriminate.
  - destruct (handle_events_inv GRID_W GRID_H (reachable GRID_W GRID_H) rd
                (fun s0 Es => reach_reset GRID_W GRID_H rd s0 Es) st st' None p evs
                (loop_reachable_reachable GRID_W GRID_H st Hl) (or_introl eq_refl) Eh)
      as [Hr _].
    destruct (reachable_Inv GRID_W GRID_H st' Hr) as [Hne _].
    destruct (update GRID_W GRID_H st' p fd) as [s''| e'' |] eqn:Eu; cbn [bind];
      try discriminate.
    intros Q; injection Q as ->.
    exact (update_no_raise GRID_W GRID_H st' p fd e ltac:(reflexivity) ltac:(reflexivity)
             Hne Eu).
  - intros Q; injection Q as ->; exact (handle_events_grid_no_raise st None evs rd e Eh).
Qed.

Lemma loop_never_raises_witness :
  loop_reachable GRID_W GRID_H start_state /\
  frame GRID_W GRID_H start_state [KEYDOWN K_UP] [] [] <> Raise RuntimeError.
Proof.
  assert (Hl : loop_reachable GRID_W GRID_H start_state)
    by (apply (loop_start GRID_W GRID_H [(0, 0)]); reflexivity).
  split; [exact Hl | exact (loop_never_raises start_state [KEYDOWN K_UP] [] [] RuntimeError Hl)].
Defined.
